(** * the_snake: the game-state update engine of [the_snake.py]

    A shallow embedding of the snake game: the constants, the two game
    objects ([Apple], [Snake]), the key handler and the body of the main
    loop.  Coordinates are Python integers (pixels, as in the source: a
    cell is the pixel position of its top-left corner), modelled as [Z];
    [//] is [Z.div] and [%] is [Z.modulo], which both round towards
    minus infinity like their Python counterparts.  Python exceptions
    are values of an error monad; the two functions of module [random]
    that the program imports draw from an explicit random source that is
    threaded through the calls. *)

From Stdlib Require Import ZArith List Bool Lia.
Import ListNotations.
Open Scope Z_scope.

(** ** Exceptions *)

Inductive exn : Type := SystemExit | IndexError | ValueError.

Inductive result (A : Type) : Type :=
| Ok (a : A)
| Raise (e : exn).

Arguments Ok {A} a.
Arguments Raise {A} e.

Definition bind {A B : Type} (m : result A) (k : A -> result B) : result B :=
  match m with
  | Ok a => k a
  | Raise e => Raise e
  end.

Notation "x <- m ;; k" := (bind m (fun x => k))
  (at level 61, m at next level, right associativity).
Notation "' p <- m ;; k" := (bind m (fun x => match x with p => k end))
  (at level 61, p pattern, m at next level, right associativity).

(** ** Constants (lines 5-14) *)

Definition SCREEN_WIDTH : Z := 640.
Definition SCREEN_HEIGHT : Z := 480.
Definition GRID_SIZE : Z := 20.
Definition GRID_WIDTH : Z := SCREEN_WIDTH / GRID_SIZE.
Definition GRID_HEIGHT : Z := SCREEN_HEIGHT / GRID_SIZE.

Definition Cell : Type := (Z * Z)%type.
Definition Direction : Type := (Z * Z)%type.

Definition UP : Direction := (0, -1).
Definition DOWN : Direction := (0, 1).
Definition LEFT : Direction := (-1, 0).
Definition RIGHT : Direction := (1, 0).

(** [==] on tuples of two integers. *)
Definition pair_eqb (a b : Z * Z) : bool :=
  (fst a =? fst b) && (snd a =? snd b).

(** [x in l] for a list of tuples. *)
Definition contains (x : Cell) (l : list Cell) : bool :=
  existsb (pair_eqb x) l.

(** The geometric opposite of a direction vector. *)
Definition opposite (d : Direction) : Direction := (- fst d, - snd d).

(** ** The random source

    [random.randint] and [random.choice] are library code.  Both are
    defined in CPython over one primitive, [_randbelow n], which returns
    an integer in [0, n) for a positive [n]; the class below is that
    primitive over an explicit generator state. *)

Class RandomSource (G : Type) : Type := {
  randbelow : Z -> G -> Z * G;
  randbelow_range : forall n g, 0 < n -> 0 <= fst (randbelow n g) < n
}.

Section Random.
Context {G : Type} `{RandomSource G}.

(** [randint(a, b)] is [randrange(a, b + 1)]: [a + _randbelow(b + 1 - a)],
    and [ValueError] on an empty range. *)
Definition randint (a b : Z) (g : G) : result (Z * G) :=
  if b + 1 - a <=? 0 then Raise ValueError
  else let '(r, g') := randbelow (b + 1 - a) g in Ok (a + r, g').

(** [choice(seq)] is [seq[_randbelow(len(seq))]], and [IndexError] on an
    empty sequence. *)
Definition choice {A : Type} (seq : list A) (g : G) : result (A * G) :=
  match seq with
  | [] => Raise IndexError
  | _ =>
      let '(i, g') := randbelow (Z.of_nat (List.length seq)) g in
      match nth_error seq (Z.to_nat i) with
      | Some x => Ok (x, g')
      | None => Raise IndexError
      end
  end.
End Random.

(** ** GameObject (lines 41-61) *)

(** [GameObject.__init__]: the position defaults to the centre of the
    board.  [body_color] is used by the drawing code only and is left out. *)
Definition GameObject_init (position : option Cell) : Cell :=
  match position with
  | None => (SCREEN_WIDTH / 2, SCREEN_HEIGHT / 2)
  | Some p => p
  end.

(** ** Apple (lines 71-91) *)

Module Apple.
Record t : Type := mk { position : Cell }.

Section WithRandom.
Context {G : Type} `{RandomSource G}.

Definition randomize_position (self : t) (g : G) : result (t * G) :=
  '(cx, g1) <- randint 0 (GRID_WIDTH - 1) g ;;
  '(cy, g2) <- randint 0 (GRID_HEIGHT - 1) g1 ;;
  let x := cx * GRID_SIZE in
  let y := cy * GRID_SIZE in
  Ok (mk (x, y), g2).

(** [Apple.__init__]: the base constructor, then a random position. *)
Definition init (g : G) : result (t * G) :=
  randomize_position (mk (GameObject_init None)) g.
End WithRandom.
End Apple.

(** ** Snake (lines 102-185) *)

(** [list.pop()]: removes and returns the last item. *)
Definition pop {A : Type} (l : list A) : result (A * list A) :=
  match l with
  | [] => Raise IndexError
  | h :: _ => Ok (List.last l h, removelast l)
  end.

Module Snake.
(** The attributes set by [Snake.__init__].  The inherited [position]
    is read once, to build [positions], and never written again. *)
Record t : Type := mk {
  length : Z;
  positions : list Cell;
  direction : Direction;
  next_direction : option Direction;
  last : option Cell
}.

Definition init : t :=
  let position := GameObject_init None in
  mk 1 [position] RIGHT None None.

Definition get_head_position (self : t) : result Cell :=
  match positions self with
  | [] => Raise IndexError
  | h :: _ => Ok h
  end.

(** Lines 137-143.  A direction is a tuple of two items, which is
    truthy; only [None] is skipped. *)
Definition update_direction (self : t) : t :=
  match next_direction self with
  | Some d => mk (length self) (positions self) d None (last self)
  | None => self
  end.

(** Lines 157-161: the candidate head. *)
Definition new_pos (self : t) : result Cell :=
  cur <- get_head_position self ;;
  let '(dx, dy) := direction self in
  let new_x := (fst cur + dx * GRID_SIZE) mod SCREEN_WIDTH in
  let new_y := (snd cur + dy * GRID_SIZE) mod SCREEN_HEIGHT in
  Ok (new_x, new_y).

(** Line 165: [new_pos in self.positions[2:]]. *)
Definition hits_body (self : t) (p : Cell) : bool :=
  contains p (skipn 2 (positions self)).

(** Line 170: [self.positions.insert(0, new_pos)]. *)
Definition insert_head (self : t) (p : Cell) : t :=
  mk (length self) (p :: positions self) (direction self)
     (next_direction self) (last self).

(** Lines 173-176: the tail is dropped when the list is longer than
    [length]. *)
Definition drop_tail (self : t) : result t :=
  if Z.of_nat (List.length (positions self)) >? length self then
    '(tail, rest) <- pop (positions self) ;;
    Ok (mk (length self) rest (direction self) (next_direction self)
           (Some tail))
  else
    Ok (mk (length self) (positions self) (direction self)
           (next_direction self) None).

(** [snake.length += 1] (line 253). *)
Definition grow (self : t) : t :=
  mk (length self + 1) (positions self) (direction self)
     (next_direction self) (last self).

Section WithRandom.
Context {G : Type} `{RandomSource G}.

(** Lines 178-185. *)
Definition reset (self : t) (g : G) : result (t * G) :=
  let length' := 1 in
  let positions' := [(SCREEN_WIDTH / 2, SCREEN_HEIGHT / 2)] in
  let last' := None in
  '(d, g') <- choice [UP; DOWN; LEFT; RIGHT] g ;;
  Ok (mk length' positions' d (next_direction self) last', g').

(** Lines 145-176. *)
Definition move (self : t) (g : G) : result (t * G) :=
  p <- new_pos self ;;
  if hits_body self p then reset self g
  else
    self' <- drop_tail (insert_head self p) ;;
    Ok (self', g).
End WithRandom.
End Snake.

(** ** Input (lines 209-229) *)

Inductive Key : Type := K_UP | K_DOWN | K_LEFT | K_RIGHT | K_OTHER.

Inductive Event : Type :=
| QUIT
| KEYDOWN (key : Key)
| OTHER_EVENT.

Definition key_eqb (a b : Key) : bool :=
  match a, b with
  | K_UP, K_UP | K_DOWN, K_DOWN | K_LEFT, K_LEFT | K_RIGHT, K_RIGHT
  | K_OTHER, K_OTHER => true
  | _, _ => false
  end.

Definition set_next_direction (s : Snake.t) (d : Direction) : Snake.t :=
  Snake.mk (Snake.length s) (Snake.positions s) (Snake.direction s)
           (Some d) (Snake.last s).

(** The [KEYDOWN] branch (lines 222-229). *)
Definition on_keydown (game_object : Snake.t) (key : Key) : Snake.t :=
  let direction := Snake.direction game_object in
  if key_eqb key K_UP && negb (pair_eqb direction DOWN) then
    set_next_direction game_object UP
  else if key_eqb key K_DOWN && negb (pair_eqb direction UP) then
    set_next_direction game_object DOWN
  else if key_eqb key K_LEFT && negb (pair_eqb direction RIGHT) then
    set_next_direction game_object LEFT
  else if key_eqb key K_RIGHT && negb (pair_eqb direction LEFT) then
    set_next_direction game_object RIGHT
  else game_object.

(** The loop over [pygame.event.get()], given the events of this frame. *)
Fixpoint handle_keys (game_object : Snake.t) (events : list Event)
  : result Snake.t :=
  match events with
  | [] => Ok game_object
  | QUIT :: _ => Raise SystemExit
  | KEYDOWN key :: rest => handle_keys (on_keydown game_object key) rest
  | OTHER_EVENT :: rest => handle_keys game_object rest
  end.

(** ** The main loop (lines 232-254) *)

Section Main.
Context {G : Type} `{RandomSource G}.

Record Game : Type := mkGame {
  snake : Snake.t;
  apple : Apple.t;
  rng : G
}.

(** Lines 238-239. *)
Definition start (g : G) : result Game :=
  let snake := Snake.init in
  '(apple, g') <- Apple.init g ;;
  Ok (mkGame snake apple g').

(** Lines 247-249: what the specification calls [advance()]. *)
Definition advance (s : Snake.t) (g : G) : result (Snake.t * G) :=
  Snake.move (Snake.update_direction s) g.

(** Lines 252-254: the apple check that follows the move. *)
Definition check_apple (s : Snake.t) (a : Apple.t) (g : G)
  : result Game :=
  head <- Snake.get_head_position s ;;
  if pair_eqb head (Apple.position a) then
    let s' := Snake.grow s in
    '(a', g') <- Apple.randomize_position a g ;;
    Ok (mkGame s' a' g')
  else Ok (mkGame s a g).

(** One pass through the body of [while True], without the drawing. *)
Definition tick (gm : Game) (events : list Event) : result Game :=
  s1 <- handle_keys (snake gm) events ;;
  '(s2, g') <- advance s1 (rng gm) ;;
  check_apple s2 (apple gm) g'.

(** The games that the loop can be in at the top of an iteration. *)
Inductive reachable : Game -> Prop :=
| reachable_start : forall g gm, start g = Ok gm -> reachable gm
| reachable_tick : forall gm events gm',
    reachable gm -> tick gm events = Ok gm' -> reachable gm'.
End Main.

Arguments Game G : clear implicits.

(** ** A scripted random source

    The generator state is the list of the raw draws still to come; each
    call of [randbelow n] takes the next one, reduced into [0, n).  An
    exhausted script keeps answering 0.  It is used to run the game on
    concrete inputs. *)

Definition script_randbelow (n : Z) (g : list Z) : Z * list Z :=
  match g with
  | [] => (0, [])
  | x :: g' => (x mod n, g')
  end.

#[export] Instance script_source : RandomSource (list Z).
Proof.
  refine {| randbelow := script_randbelow |}.
  intros n [| x g] Hn; cbn [script_randbelow fst].
  - split; [apply Z.le_refl | exact Hn].
  - apply Z.mod_pos_bound; exact Hn.
Defined.

(** Runs the loop body once per list of events. *)
Fixpoint run {G : Type} `{RandomSource G} (gm : Game G)
  (frames : list (list Event)) : result (Game G) :=
  match frames with
  | [] => Ok gm
  | events :: rest => gm' <- tick gm events ;; run gm' rest
  end.

(** A scripted session: five apples are eaten in a row (four to the right
    of the start, one above the last), then the snake goes up, left and
    down, which leaves it one step above its own body, heading [DOWN].
    The sixth apple is drawn at the centre of the board.  [reset_draw] is
    the raw draw that the next call of [choice] will receive. *)
Definition session_script (reset_draw : Z) : list Z :=
  [17; 12; 18; 12; 19; 12; 20; 12; 20; 11; 16; 12; reset_draw; 5; 7].

Definition session_frames : list (list Event) :=
  [[]; []; []; []; [KEYDOWN K_UP]; []; [KEYDOWN K_LEFT]; [KEYDOWN K_DOWN]].

Definition before_crash (reset_draw : Z) : result (Game (list Z)) :=
  gm <- start (session_script reset_draw) ;; run gm session_frames.

(** The game that [before_crash] evaluates to. *)
Definition crash_game (reset_draw : Z) : Game (list Z) :=
  mkGame
    (Snake.mk 6
       [(380, 220); (380, 200); (400, 200); (400, 220); (400, 240); (380, 240)]
       DOWN None (Some (360, 240)))
    (Apple.mk (320, 240))
    [reset_draw; 5; 7].

(** ** Vocabulary of the properties *)

Definition directions : list Direction := [UP; DOWN; LEFT; RIGHT].

(** The centre of the board, where [GameObject.__init__] and
    [Snake.reset] put the snake. *)
Definition center : Cell := (SCREEN_WIDTH / 2, SCREEN_HEIGHT / 2).

(** The state that [Snake.reset] leaves behind when [choice] returns [d]
    (the pending direction has been consumed by [update_direction]). *)
Definition reset_snake (d : Direction) : Snake.t :=
  Snake.mk 1 [center] d None None.

(** A position that is the corner of a cell of the board. *)
Definition on_grid (c : Cell) : Prop :=
  (fst c mod GRID_SIZE = 0 /\ 0 <= fst c < SCREEN_WIDTH) /\
  (snd c mod GRID_SIZE = 0 /\ 0 <= snd c < SCREEN_HEIGHT).

(** The direction that an arrow key asks for. *)
Definition key_direction (key : Key) : option Direction :=
  match key with
  | K_UP => Some UP
  | K_DOWN => Some DOWN
  | K_LEFT => Some LEFT
  | K_RIGHT => Some RIGHT
  | K_OTHER => None
  end.

(** The frame has no [QUIT], and every arrow key in it asks for [d]. *)
Definition only_requests (d : Direction) (events : list Event) : Prop :=
  Forall (fun ev =>
            match ev with
            | QUIT => False
            | KEYDOWN key =>
                match key_direction key with
                | Some d' => d' = d
                | None => True
                end
            | OTHER_EVENT => True
            end) events.

(** The direction in force once the input of the frame has been handled
    and [update_direction] has run: the one the move of this tick uses. *)
Definition committed (s : Snake.t) (events : list Event) : result Direction :=
  s1 <- handle_keys s events ;;
  Ok (Snake.direction (Snake.update_direction s1)).

(** The tick that handles [events] runs into the body: [Snake.move] takes
    the branch of line 166. *)
Definition crashes (s : Snake.t) (events : list Event) : Prop :=
  exists s1 p,
    handle_keys s events = Ok s1 /\
    Snake.new_pos (Snake.update_direction s1) = Ok p /\
    Snake.hits_body (Snake.update_direction s1) p = true.

Definition segments (s : Snake.t) : Z :=
  Z.of_nat (List.length (Snake.positions s)).

(** What holds of the snake at the top of every iteration. *)
Definition snake_inv (s : Snake.t) : Prop :=
  Snake.positions s <> [] /\
  (segments s = Snake.length s \/ segments s + 1 = Snake.length s) /\
  Snake.next_direction s = None /\
  In (Snake.direction s) directions.

(** The snake and apple states that any interleaving of the operations
    can produce, whatever the random source answers. *)
Inductive op_reachable {G : Type} `{RandomSource G}
  : Snake.t -> Apple.t -> Prop :=
| op_construct : forall g a g',
    Apple.init g = Ok (a, g') -> op_reachable Snake.init a
| op_input : forall s a events s',
    op_reachable s a -> handle_keys s events = Ok s' -> op_reachable s' a
| op_advance : forall s a g s' g',
    op_reachable s a -> advance s g = Ok (s', g') -> op_reachable s' a
| op_grow : forall s a,
    op_reachable s a -> op_reachable (Snake.grow s) a
| op_reset : forall s a g s' g',
    op_reachable s a -> Snake.reset s g = Ok (s', g') -> op_reachable s' a
| op_relocate : forall s a g a' g',
    op_reachable s a -> Apple.randomize_position a g = Ok (a', g') ->
    op_reachable s a'.

Arguments op_reachable G {_} _ _.

(** ** Drawing (lines 16-26, 93-99, 187-206, 256-264)

    The calls made on the pygame display are recorded in order.  The
    attribute [body_color] is assigned by the two constructors only
    ([APPLE_COLOR] for the apple, [SNAKE_COLOR] for the snake), so the
    drawing code below reads the constant. *)

Definition Color : Type := (Z * Z * Z)%type.

Definition BOARD_BACKGROUND_COLOR : Color := (0, 0, 0).
Definition BORDER_COLOR : Color := (93, 216, 228).
Definition APPLE_COLOR : Color := (255, 0, 0).
Definition SNAKE_COLOR : Color := (0, 255, 0).

(** [pygame.Rect(position, size)]. *)
Definition Rect (position : Cell) (size : Z * Z) : Cell * (Z * Z) :=
  (position, size).

Inductive ScreenCall : Type :=
| draw_rect (color : Color) (rect : Cell * (Z * Z)) (width : Z)
| screen_fill (color : Color)
| display_update.

(** [Apple.draw] (lines 93-99); the width of [pygame.draw.rect] defaults
    to 0, a filled rectangle. *)
Definition Apple_draw (self : Apple.t) : list ScreenCall :=
  let rect := Rect (Apple.position self) (GRID_SIZE, GRID_SIZE) in
  [draw_rect APPLE_COLOR rect 0; draw_rect BORDER_COLOR rect 1].

(** [Snake.draw] (lines 187-206).  [positions[:-1]] is the list without
    its last item; [positions[0]] raises on an empty list, after a loop
    that has drawn nothing; a tuple of two items is truthy, so the test of
    line 204 is a test for [None]. *)
Definition Snake_draw (self : Snake.t) : result (list ScreenCall) :=
  let body :=
    flat_map (fun position =>
                let rect := Rect position (GRID_SIZE, GRID_SIZE) in
                [draw_rect SNAKE_COLOR rect 0; draw_rect BORDER_COLOR rect 1])
             (removelast (Snake.positions self)) in
  match Snake.positions self with
  | [] => Raise IndexError
  | head :: _ =>
      let head_rect := Rect head (GRID_SIZE, GRID_SIZE) in
      let erase :=
        match Snake.last self with
        | Some last =>
            let last_rect := Rect last (GRID_SIZE, GRID_SIZE) in
            [draw_rect BOARD_BACKGROUND_COLOR last_rect 0]
        | None => []
        end in
      Ok (body
          ++ [draw_rect SNAKE_COLOR head_rect 0;
              draw_rect BORDER_COLOR head_rect 1]
          ++ erase)
  end.

(** Lines 256-264: what one iteration puts on the display. *)
Definition render {G : Type} (gm : Game G) : result (list ScreenCall) :=
  snake_calls <- Snake_draw (snake gm) ;;
  Ok ([screen_fill BOARD_BACKGROUND_COLOR]
      ++ Apple_draw (apple gm)
      ++ snake_calls
      ++ [display_update]).

(** The whole body of [while True] (lines 241-264), the clock apart. *)
Definition frame {G : Type} `{RandomSource G} (gm : Game G)
  (events : list Event) : result (Game G * list ScreenCall) :=
  gm' <- tick gm events ;;
  calls <- render gm' ;;
  Ok (gm', calls).

(** ** Vocabulary of the further properties *)

(** One step from [c] along [d], as lines 159-160 compute it. *)
Definition step (d : Direction) (c : Cell) : Cell :=
  ((fst c + fst d * GRID_SIZE) mod SCREEN_WIDTH,
   (snd c + snd d * GRID_SIZE) mod SCREEN_HEIGHT).

(** Every segment is one step away from the next one. *)
Fixpoint linked (l : list Cell) : Prop :=
  match l with
  | a :: (b :: _) as rest =>
      (exists d, In d directions /\ a = step d b) /\ linked rest
  | _ => True
  end.

(** What holds of the body of the snake at the top of every iteration. *)
Definition body_inv (s : Snake.t) : Prop :=
  Forall on_grid (Snake.positions s) /\
  NoDup (Snake.positions s) /\
  linked (Snake.positions s) /\
  (forall h n rest,
     Snake.positions s = h :: n :: rest -> h = step (Snake.direction s) n) /\
  (forall l, Snake.last s = Some l -> ~ In l (Snake.positions s)).

(** The corners of all the cells of the board. *)
Definition all_cells : list Cell :=
  list_prod
    (map (fun i => Z.of_nat i * GRID_SIZE) (seq 0 (Z.to_nat GRID_WIDTH)))
    (map (fun j => Z.of_nat j * GRID_SIZE) (seq 0 (Z.to_nat GRID_HEIGHT))).

(** [n] iterations of input handling and [advance], none of which runs
    into the body; the random source may be in any state each time. *)
Inductive committed_moves {G : Type} `{RandomSource G}
  : nat -> Snake.t -> Snake.t -> Prop :=
| moves_none : forall s, committed_moves 0 s s
| moves_next : forall n s events s1 p g s2 g' s3,
    handle_keys s events = Ok s1 ->
    Snake.new_pos (Snake.update_direction s1) = Ok p ->
    Snake.hits_body (Snake.update_direction s1) p = false ->
    advance s1 g = Ok (s2, g') ->
    committed_moves n s2 s3 ->
    committed_moves (S n) s s3.

Arguments committed_moves G {_} _ _ _.

(** The filled rectangle that paints cell [c] in the colour of the snake. *)
Definition paints (c : Cell) : ScreenCall :=
  draw_rect SNAKE_COLOR (Rect c (GRID_SIZE, GRID_SIZE)) 0.

(** * Properties *)

(** ** Equality tests and membership *)

Lemma pair_eqb_eq (a b : Z * Z) : pair_eqb a b = true <-> a = b.
Proof.
  destruct a as [a1 a2], b as [b1 b2]; unfold pair_eqb; simpl.
  rewrite andb_true_iff, !Z.eqb_eq.
  split; [intros [-> ->]; reflexivity | intros E; inversion E; auto].
Qed.

Lemma pair_eqb_refl (a : Z * Z) : pair_eqb a a = true.
Proof. apply pair_eqb_eq; reflexivity. Qed.

Lemma pair_eqb_neq (a b : Z * Z) : pair_eqb a b = false <-> a <> b.
Proof.
  rewrite <- pair_eqb_eq. destruct (pair_eqb a b); split; congruence.
Qed.

Lemma contains_In (x : Cell) (l : list Cell) :
  contains x l = true <-> In x l.
Proof.
  unfold contains; rewrite existsb_exists; split.
  - intros [y [Hy E]]. apply pair_eqb_eq in E. subst; exact Hy.
  - intros Hx. exists x. split; [exact Hx | apply pair_eqb_refl].
Qed.

Lemma center_value : center = (320, 240).
Proof. reflexivity. Qed.

Lemma center_on_grid : on_grid center.
Proof. repeat split; vm_compute; congruence. Qed.

(** ** The random source *)

Section RandomFacts.
Context {G : Type} `{RandomSource G}.

Lemma randint_ok (a b : Z) (g : G) :
  a <= b ->
  exists r, randint a b g = Ok (r, snd (randbelow (b + 1 - a) g)) /\
            a <= r <= b.
Proof.
  intros Hab. unfold randint.
  destruct (Z.leb_spec (b + 1 - a) 0) as [Hle | Hgt]; [lia |].
  pose proof (randbelow_range (b + 1 - a) g Hgt) as Hr.
  destruct (randbelow (b + 1 - a) g) as [r g']; simpl in *.
  exists (a + r). split; [reflexivity | lia].
Qed.

Lemma choice_directions (g : G) :
  exists d, choice directions g = Ok (d, snd (randbelow 4 g)) /\
            In d directions /\
            nth_error directions (Z.to_nat (fst (randbelow 4 g))) = Some d.
Proof.
  unfold choice, directions.
  change (Z.of_nat (List.length [UP; DOWN; LEFT; RIGHT])) with 4.
  pose proof (randbelow_range 4 g ltac:(lia)) as Hr.
  destruct (randbelow 4 g) as [i g']; simpl fst in *; simpl snd.
  assert (Hi : i = 0 \/ i = 1 \/ i = 2 \/ i = 3) by lia.
  destruct Hi as [-> | [-> | [-> | ->]]]; cbn;
    eexists; (split; [reflexivity | split; [| reflexivity]]); simpl; auto.
Qed.

Lemma reset_ok (s : Snake.t) (g : G) :
  exists d, choice directions g = Ok (d, snd (randbelow 4 g)) /\
            In d directions /\
            Snake.reset s g =
              Ok (Snake.mk 1 [center] d (Snake.next_direction s) None,
                  snd (randbelow 4 g)).
Proof.
  destruct (choice_directions g) as [d [Hc [Hin _]]].
  exists d. split; [exact Hc | split; [exact Hin |]].
  unfold Snake.reset. fold directions. rewrite Hc. reflexivity.
Qed.

Lemma randomize_position_ok (a : Apple.t) (g : G) :
  exists cx cy g',
    Apple.randomize_position a g
      = Ok (Apple.mk (cx * GRID_SIZE, cy * GRID_SIZE), g') /\
    0 <= cx < GRID_WIDTH /\ 0 <= cy < GRID_HEIGHT.
Proof.
  unfold Apple.randomize_position.
  destruct (randint_ok 0 (GRID_WIDTH - 1) g ltac:(cbv; discriminate))
    as [cx [Ex Hx]].
  rewrite Ex; cbn [bind].
  destruct (randint_ok 0 (GRID_HEIGHT - 1)
              (snd (randbelow (GRID_WIDTH - 1 + 1 - 0) g))
              ltac:(cbv; discriminate)) as [cy [Ey Hy]].
  rewrite Ey; cbn [bind].
  exists cx, cy. eexists. split; [reflexivity |].
  change GRID_WIDTH with 32 in *; change GRID_HEIGHT with 24 in *. lia.
Qed.
End RandomFacts.

(** ** Direction update and input *)

Lemma update_direction_positions (s : Snake.t) :
  Snake.positions (Snake.update_direction s) = Snake.positions s.
Proof. unfold Snake.update_direction; destruct (Snake.next_direction s); reflexivity. Qed.

Lemma update_direction_length (s : Snake.t) :
  Snake.length (Snake.update_direction s) = Snake.length s.
Proof. unfold Snake.update_direction; destruct (Snake.next_direction s); reflexivity. Qed.

Lemma update_direction_clears (s : Snake.t) :
  Snake.next_direction (Snake.update_direction s) = None.
Proof.
  unfold Snake.update_direction.
  destruct (Snake.next_direction s) eqn:E; [reflexivity | exact E].
Qed.

Lemma update_direction_idle (s : Snake.t) :
  Snake.next_direction s = None -> Snake.update_direction s = s.
Proof. intros E; unfold Snake.update_direction; rewrite E; reflexivity. Qed.

(** ** Committing a move *)

Lemma removelast_cons_length {A : Type} (x : A) (l : list A) :
  List.length (removelast (x :: l)) = List.length l.
Proof.
  revert x; induction l as [| y l IH]; intros x; [reflexivity |].
  change (removelast (x :: y :: l)) with (x :: removelast (y :: l)).
  cbn [List.length]. rewrite IH. reflexivity.
Qed.

Lemma last_cons {A : Type} (rest : list A) (h d : A) :
  List.last (h :: rest) d = List.last rest h.
Proof.
  revert h d; induction rest as [| y rest IH]; intros h d; [reflexivity |].
  change (List.last (h :: y :: rest) d) with (List.last (y :: rest) d).
  rewrite (IH y d), (IH y h). reflexivity.
Qed.

(** After the insertion the list has two items at least, so the [pop]
    succeeds and leaves the new head in place. *)
Lemma drop_tail_insert_head (s : Snake.t) (p h : Cell) (rest : list Cell) :
  Snake.positions s = h :: rest ->
  exists s',
    Snake.drop_tail (Snake.insert_head s p) = Ok s' /\
    hd_error (Snake.positions s') = Some p /\
    Snake.length s' = Snake.length s /\
    Snake.direction s' = Snake.direction s /\
    Snake.next_direction s' = Snake.next_direction s /\
    ((segments s + 1 > Snake.length s /\
      Snake.positions s' = p :: removelast (h :: rest) /\
      Snake.last s' = Some (List.last rest h)) \/
     (segments s + 1 <= Snake.length s /\
      Snake.positions s' = p :: h :: rest /\
      Snake.last s' = None)).
Proof.
  intros Hpos. unfold Snake.drop_tail, Snake.insert_head, segments.
  cbn [Snake.positions Snake.length Snake.direction Snake.next_direction].
  rewrite Hpos.
  destruct (Z.gtb_spec (Z.of_nat (List.length (p :: h :: rest)))
              (Snake.length s)) as [Hgt | Hle].
  - eexists; split; [reflexivity |].
    cbn [Snake.positions Snake.length Snake.direction Snake.next_direction
         Snake.last].
    change (removelast (p :: h :: rest)) with (p :: removelast (h :: rest)).
    repeat split; try reflexivity.
    left. split; [cbn [List.length] in *; lia |].
    split; [reflexivity |].
    change (List.last (p :: h :: rest) p) with (List.last (h :: rest) p).
    rewrite last_cons. reflexivity.
  - eexists; split; [reflexivity |].
    cbn [Snake.positions Snake.length Snake.direction Snake.next_direction
         Snake.last].
    repeat split; try reflexivity.
    right. repeat split; try reflexivity.
    cbn [List.length] in *. lia.
Qed.

(** A candidate head that misses the body is inserted, and no random
    draw is made. *)
Lemma move_commits {G : Type} `{RandomSource G}
  (s : Snake.t) (g : G) (p : Cell) :
  Snake.new_pos s = Ok p ->
  Snake.hits_body s p = false ->
  exists s',
    Snake.move s g = Ok (s', g) /\
    hd_error (Snake.positions s') = Some p.
Proof.
  intros Hnew Hfree.
  assert (Hpos : exists h rest, Snake.positions s = h :: rest).
  { unfold Snake.new_pos, Snake.get_head_position in Hnew.
    destruct (Snake.positions s) as [| h rest]; [discriminate |].
    exists h, rest; reflexivity. }
  destruct Hpos as [h [rest Hpos]].
  destruct (drop_tail_insert_head s p h rest Hpos) as [s' [Hdrop [Hhd _]]].
  exists s'. split; [| exact Hhd].
  unfold Snake.move. rewrite Hnew; cbn [bind].
  rewrite Hfree, Hdrop. reflexivity.
Qed.

Lemma new_pos_value (s : Snake.t) (h : Cell) (rest : list Cell) (dx dy : Z) :
  Snake.positions s = h :: rest ->
  Snake.direction s = (dx, dy) ->
  Snake.new_pos s
  = Ok ((fst h + dx * GRID_SIZE) mod SCREEN_WIDTH,
        (snd h + dy * GRID_SIZE) mod SCREEN_HEIGHT).
Proof.
  intros Hpos Hdir. unfold Snake.new_pos, Snake.get_head_position.
  rewrite Hpos, Hdir. reflexivity.
Qed.

(** ** Claim C1 *)

(** C1.  Whenever the candidate head that [advance] computes lies in
    [positions[2:]], [advance] returns the reset snake: one segment, at
    the centre of the board (cell (16, 12)), [length] 1, [last] empty, and
    as direction the item of [[UP; DOWN; LEFT; RIGHT]] that [choice] drew
    from the random source; the candidate head is not inserted and no
    tail is popped. *)
Theorem collision_resets {G : Type} `{RandomSource G}
  (s : Snake.t) (g : G) (p : Cell) :
  Snake.new_pos (Snake.update_direction s) = Ok p ->
  In p (skipn 2 (Snake.positions s)) ->
  exists d g',
    choice [UP; DOWN; LEFT; RIGHT] g = Ok (d, g') /\
    In d [UP; DOWN; LEFT; RIGHT] /\
    advance s g = Ok (Snake.mk 1 [center] d None None, g') /\
    center = (GRID_WIDTH / 2 * GRID_SIZE, GRID_HEIGHT / 2 * GRID_SIZE).
Proof.
  intros Hp Hin.
  destruct (reset_ok (Snake.update_direction s) g) as [d [Hc [Hd Hr]]].
  exists d, (snd (randbelow 4 g)).
  split; [exact Hc | split; [exact Hd | split; [| reflexivity]]].
  unfold advance, Snake.move. rewrite Hp; cbn [bind].
  unfold Snake.hits_body. rewrite update_direction_positions.
  apply contains_In in Hin. rewrite Hin.
  rewrite Hr, update_direction_clears. reflexivity.
Qed.

Lemma collision_resets_witness :
  Snake.new_pos (Snake.update_direction (snake (crash_game 0))) = Ok (380, 240) /\
  In (380, 240) (skipn 2 (Snake.positions (snake (crash_game 0)))) /\
  exists d g',
    choice [UP; DOWN; LEFT; RIGHT] [0; 5; 7] = Ok (d, g') /\
    In d [UP; DOWN; LEFT; RIGHT] /\
    advance (snake (crash_game 0)) [0; 5; 7]
      = Ok (Snake.mk 1 [center] d None None, g') /\
    center = (GRID_WIDTH / 2 * GRID_SIZE, GRID_HEIGHT / 2 * GRID_SIZE).
Proof.
  split; [reflexivity | split; [simpl; auto 10 |]].
  apply (collision_resets (snake (crash_game 0)) [0; 5; 7] (380, 240)).
  - reflexivity.
  - simpl; auto 10.
Defined.

(** ** Claim C2 *)

Lemma wrap_cell (c d n : Z) :
  0 < n ->
  (c * GRID_SIZE + d * GRID_SIZE) mod (n * GRID_SIZE)
  = ((c + d) mod n) * GRID_SIZE.
Proof.
  intros Hn. rewrite <- Z.mul_add_distr_r.
  apply Z.mul_mod_distr_r; [lia | discriminate].
Qed.

(** C2.  The candidate head wraps around the board.  For every snake and
    every direction vector both coordinates are reduced modulo the extent
    of the board and lie in [0, extent); when no collision follows, this
    is the head that [move] inserts.  For a head at cell [(c, r)] the new
    cell is [((c + dx) mod GRID_WIDTH, (r + dy) mod GRID_HEIGHT)]: going
    [RIGHT] from the last column gives column 0 of the same row, and
    likewise [LEFT] from column 0, [UP] from row 0 and [DOWN] from the
    last row. *)
Theorem new_head_wraps {G : Type} `{RandomSource G}
  (s : Snake.t) (h : Cell) (rest : list Cell) (dx dy : Z) :
  Snake.positions s = h :: rest ->
  Snake.direction s = (dx, dy) ->
  exists x y,
    Snake.new_pos s = Ok (x, y) /\
    x = (fst h + dx * GRID_SIZE) mod SCREEN_WIDTH /\
    y = (snd h + dy * GRID_SIZE) mod SCREEN_HEIGHT /\
    0 <= x < SCREEN_WIDTH /\ 0 <= y < SCREEN_HEIGHT /\
    (Snake.hits_body s (x, y) = false ->
     forall g : G, exists s',
       Snake.move s g = Ok (s', g) /\
       hd_error (Snake.positions s') = Some (x, y)) /\
    (forall c r, h = (c * GRID_SIZE, r * GRID_SIZE) ->
       x = ((c + dx) mod GRID_WIDTH) * GRID_SIZE /\
       y = ((r + dy) mod GRID_HEIGHT) * GRID_SIZE /\
       0 <= (c + dx) mod GRID_WIDTH < GRID_WIDTH /\
       0 <= (r + dy) mod GRID_HEIGHT < GRID_HEIGHT /\
       (0 <= r < GRID_HEIGHT -> (dx, dy) = RIGHT -> c = GRID_WIDTH - 1 ->
        (x, y) = (0, r * GRID_SIZE)) /\
       (0 <= r < GRID_HEIGHT -> (dx, dy) = LEFT -> c = 0 ->
        (x, y) = ((GRID_WIDTH - 1) * GRID_SIZE, r * GRID_SIZE)) /\
       (0 <= c < GRID_WIDTH -> (dx, dy) = UP -> r = 0 ->
        (x, y) = (c * GRID_SIZE, (GRID_HEIGHT - 1) * GRID_SIZE)) /\
       (0 <= c < GRID_WIDTH -> (dx, dy) = DOWN -> r = GRID_HEIGHT - 1 ->
        (x, y) = (c * GRID_SIZE, 0))).
Proof.
  intros Hpos Hdir.
  pose proof (new_pos_value s h rest dx dy Hpos Hdir) as Hnew.
  eexists; eexists. split; [exact Hnew |].
  split; [reflexivity | split; [reflexivity |]].
  split; [apply Z.mod_pos_bound; reflexivity |].
  split; [apply Z.mod_pos_bound; reflexivity |].
  split.
  - intros Hfree g. exact (move_commits s g _ Hnew Hfree).
  - intros c r ->. cbn [fst snd].
    change SCREEN_WIDTH with (GRID_WIDTH * GRID_SIZE).
    change SCREEN_HEIGHT with (GRID_HEIGHT * GRID_SIZE).
    rewrite !wrap_cell by reflexivity.
    split; [reflexivity | split; [reflexivity |]].
    split; [apply Z.mod_pos_bound; reflexivity |].
    split; [apply Z.mod_pos_bound; reflexivity |].
    unfold RIGHT, LEFT, UP, DOWN.
    change GRID_WIDTH with 32; change GRID_HEIGHT with 24.
    repeat split; intros Hb E Hc; inversion E; subst;
      cbn [Z.add Z.sub Z.opp Z.pos_sub Pos.add Pos.succ Pos.pred_double];
      rewrite ?Z.add_0_r; f_equal;
      try reflexivity;
      try (rewrite Z.mod_small by lia; reflexivity).
Qed.

Lemma new_head_wraps_witness :
  let s := Snake.mk 3 [(620, 240); (600, 240); (580, 240)] RIGHT None None in
  Snake.positions s = [(620, 240); (600, 240); (580, 240)] /\
  Snake.direction s = (1, 0) /\
  exists x y, Snake.new_pos s = Ok (x, y) /\ (x, y) = (0, 12 * GRID_SIZE).
Proof.
  intros s. split; [reflexivity | split; [reflexivity |]].
  destruct (new_head_wraps (G := list Z) s (620, 240)
              [(600, 240); (580, 240)] 1 0 eq_refl eq_refl)
    as [x [y [Hnew [_ [_ [_ [_ [_ Hcell]]]]]]]].
  destruct (Hcell 31 12 eq_refl) as [_ [_ [_ [_ [Hright _]]]]].
  exists x, y. split; [exact Hnew |].
  apply Hright; [cbv; split; congruence | reflexivity | reflexivity].
Defined.

(** ** Claim C7 *)

(** C7.  With at most two segments [positions[2:]] is empty, so the test
    of line 165 fails for every candidate head: [advance] takes the
    committing branch and draws nothing from the random source, whatever
    the direction and the pending request; with one or two segments it
    returns the snake with the candidate head in front. *)
Theorem short_snake_never_resets {G : Type} `{RandomSource G}
  (s : Snake.t) (g : G) :
  (List.length (Snake.positions s) <= 2)%nat ->
  (forall p, Snake.hits_body (Snake.update_direction s) p = false) /\
  advance s g =
    (p <- Snake.new_pos (Snake.update_direction s) ;;
     s' <- Snake.drop_tail (Snake.insert_head (Snake.update_direction s) p) ;;
     Ok (s', g)) /\
  (Snake.positions s <> [] ->
   exists p s',
     Snake.new_pos (Snake.update_direction s) = Ok p /\
     advance s g = Ok (s', g) /\
     hd_error (Snake.positions s') = Some p).
Proof.
  intros Hlen.
  assert (Hfree : forall p,
             Snake.hits_body (Snake.update_direction s) p = false).
  { intros p. unfold Snake.hits_body. rewrite update_direction_positions.
    destruct (Snake.positions s) as [| a [| b [| c l]]]; try reflexivity.
    simpl in Hlen. lia. }
  assert (Hadv : advance s g =
    (p <- Snake.new_pos (Snake.update_direction s) ;;
     s' <- Snake.drop_tail (Snake.insert_head (Snake.update_direction s) p) ;;
     Ok (s', g))).
  { unfold advance, Snake.move.
    destruct (Snake.new_pos (Snake.update_direction s)) as [p |];
      [cbn [bind]; rewrite Hfree |]; reflexivity. }
  split; [exact Hfree | split; [exact Hadv |]].
  intros Hne.
  destruct (Snake.positions s) as [| h rest] eqn:Hpos; [congruence |].
  assert (Hpos' : Snake.positions (Snake.update_direction s) = h :: rest)
    by (rewrite update_direction_positions; exact Hpos).
  destruct (Snake.direction (Snake.update_direction s)) as [dx dy] eqn:Hdir.
  pose proof (new_pos_value _ h rest dx dy Hpos' Hdir) as Hnew.
  destruct (move_commits (Snake.update_direction s) g _ Hnew (Hfree _))
    as [s' [Hs' Hhd]].
  eexists; exists s'.
  split; [exact Hnew | split; [exact Hs' | exact Hhd]].
Qed.

Lemma short_snake_never_resets_witness :
  (List.length (Snake.positions Snake.init) <= 2)%nat /\
  advance Snake.init [3]
  = Ok (Snake.mk 1 [(340, 240)] RIGHT None (Some (320, 240)), [3]).
Proof.
  split; [simpl; lia |].
  destruct (short_snake_never_resets Snake.init [3] ltac:(simpl; lia))
    as [_ [Hadv _]].
  rewrite Hadv. reflexivity.
Defined.

(** ** Input filtering *)

Lemma opposite_involutive (d : Direction) : opposite (opposite d) = d.
Proof. destruct d as [dx dy]; unfold opposite; cbn [fst snd]; f_equal; lia. Qed.

Lemma opposite_swap (d e : Direction) : d = opposite e <-> e = opposite d.
Proof.
  split; intros ->; rewrite opposite_involutive; reflexivity.
Qed.

Lemma direction_not_self_opposite (d : Direction) :
  In d directions -> d <> opposite d.
Proof.
  intros [<- | [<- | [<- | [<- | []]]]]; discriminate.
Qed.

Lemma key_direction_in (key : Key) (d : Direction) :
  key_direction key = Some d -> In d directions.
Proof.
  destruct key; intros E; inversion E; subst; simpl; auto.
Qed.

(** The chain of tests of [handle_keys], read off the key pressed: an arrow
    key is stored unless the snake is heading the opposite way. *)
Lemma on_keydown_spec (s : Snake.t) (key : Key) :
  on_keydown s key =
    match key_direction key with
    | Some d =>
        if pair_eqb (Snake.direction s) (opposite d) then s
        else set_next_direction s d
    | None => s
    end.
Proof.
  unfold on_keydown.
  destruct key; cbn [key_eqb key_direction andb];
    change (opposite UP) with DOWN; change (opposite DOWN) with UP;
    change (opposite LEFT) with RIGHT; change (opposite RIGHT) with LEFT;
    try reflexivity;
    destruct (pair_eqb (Snake.direction s) _); reflexivity.
Qed.

Lemma handle_keys_spec (events : list Event) :
  forall s s',
    handle_keys s events = Ok s' ->
    Snake.length s' = Snake.length s /\
    Snake.positions s' = Snake.positions s /\
    Snake.direction s' = Snake.direction s /\
    Snake.last s' = Snake.last s /\
    (Snake.next_direction s' = Snake.next_direction s \/
     exists d, Snake.next_direction s' = Some d /\
               In d directions /\
               d <> opposite (Snake.direction s)).
Proof.
  induction events as [| ev rest IH]; intros s s' Hk.
  - inversion Hk; subst. repeat split; auto.
  - destruct ev as [| key |]; cbn [handle_keys] in Hk.
    + discriminate.
    + apply IH in Hk. rewrite on_keydown_spec in Hk.
      destruct (key_direction key) as [d |] eqn:Hkey; [| exact Hk].
      destruct (pair_eqb (Snake.direction s) (opposite d)) eqn:Hopp;
        [exact Hk |].
      cbn [set_next_direction Snake.length Snake.positions Snake.direction
           Snake.last Snake.next_direction] in Hk.
      destruct Hk as [Hl [Hp [Hd [Hla Hn]]]].
      repeat split; try assumption.
      right. destruct Hn as [Hn | Hn]; [| exact Hn].
      exists d. split; [exact Hn |].
      split; [exact (key_direction_in key d Hkey) |].
      apply pair_eqb_neq in Hopp. intros E. apply Hopp.
      apply opposite_swap. exact E.
    + apply IH in Hk. exact Hk.
Qed.

(** A frame whose arrow keys all ask for a reversal changes nothing. *)
Lemma handle_keys_reversals (events : list Event) (s : Snake.t) :
  only_requests (opposite (Snake.direction s)) events ->
  handle_keys s events = Ok s.
Proof.
  unfold only_requests. induction 1 as [| ev rest Hev _ IH]; [reflexivity |].
  destruct ev as [| key |]; cbn [handle_keys].
  - contradiction.
  - rewrite on_keydown_spec.
    destruct (key_direction key) as [d |]; [| exact IH].
    subst d. rewrite opposite_involutive, pair_eqb_refl. exact IH.
  - exact IH.
Qed.

(** ** The apple check *)

Lemma new_pos_head (s : Snake.t) (p : Cell) :
  Snake.new_pos s = Ok p ->
  exists h rest, Snake.positions s = h :: rest.
Proof.
  unfold Snake.new_pos, Snake.get_head_position.
  destruct (Snake.positions s) as [| h rest]; [discriminate |].
  intros _. exists h, rest. reflexivity.
Qed.

Section AppleCheck.
Context {G : Type} `{RandomSource G}.

Lemma check_apple_spec (s : Snake.t) (a : Apple.t) (g : G) (h : Cell) :
  hd_error (Snake.positions s) = Some h ->
  (h = Apple.position a /\
   exists a' g',
     Apple.randomize_position a g = Ok (a', g') /\
     check_apple s a g = Ok (mkGame (Snake.grow s) a' g')) \/
  (h <> Apple.position a /\ check_apple s a g = Ok (mkGame s a g)).
Proof.
  intros Hhd. unfold check_apple, Snake.get_head_position.
  destruct (Snake.positions s) as [| h' rest]; [discriminate |].
  inversion Hhd; subst h'. cbn [bind].
  destruct (pair_eqb h (Apple.position a)) eqn:E.
  - left. apply pair_eqb_eq in E. split; [exact E |].
    destruct (randomize_position_ok a g) as [cx [cy [g' [Hr _]]]].
    eexists; exists g'. split; [exact Hr |]. rewrite Hr. reflexivity.
  - right. apply pair_eqb_neq in E. split; [exact E | reflexivity].
Qed.

Lemma check_apple_direction (s : Snake.t) (a : Apple.t) (g : G)
  (gm : Game G) :
  check_apple s a g = Ok gm ->
  Snake.direction (snake gm) = Snake.direction s /\
  Snake.positions (snake gm) = Snake.positions s /\
  Snake.next_direction (snake gm) = Snake.next_direction s.
Proof.
  unfold check_apple.
  destruct (Snake.get_head_position s) as [h |]; [| discriminate].
  cbn [bind]. destruct (pair_eqb h (Apple.position a)).
  - destruct (Apple.randomize_position a g) as [[a' g'] |];
      [| discriminate].
    cbn [bind]. intros E; inversion E; subst. repeat split.
  - intros E; inversion E; subst. repeat split.
Qed.
End AppleCheck.

(** ** Claim C4 *)

(** C4 as stated fails: a snake heading [RIGHT] with [LEFT] pending, which
    is the opposite, comes out of [update_direction] heading [LEFT], and
    [advance] moves it one cell to the left. *)
Lemma update_direction_commits_reversal :
  let s := Snake.mk 1 [(320, 240)] RIGHT (Some LEFT) None in
  Snake.next_direction s = Some (opposite (Snake.direction s)) /\
  Snake.direction (Snake.update_direction s) = LEFT /\
  Snake.direction (Snake.update_direction s) <> Snake.direction s /\
  advance s [3] = Ok (Snake.mk 1 [(300, 240)] LEFT None (Some (320, 240)), [3]).
Proof.
  cbv zeta. repeat split. discriminate.
Qed.

(** C4, amended.  [update_direction] commits a pending direction whenever
    there is one, opposite or not, and clears it; with nothing pending it
    changes nothing.  Reversals are dropped by [handle_keys] alone: it
    never touches [direction], and what it stores is one of the four
    directions and not the opposite of [direction]. *)
Theorem pending_direction_committed :
  (forall s d,
     Snake.next_direction s = Some d ->
     Snake.direction (Snake.update_direction s) = d /\
     Snake.next_direction (Snake.update_direction s) = None /\
     Snake.positions (Snake.update_direction s) = Snake.positions s /\
     Snake.length (Snake.update_direction s) = Snake.length s) /\
  (forall s,
     Snake.next_direction s = None -> Snake.update_direction s = s) /\
  (forall s events s',
     handle_keys s events = Ok s' ->
     Snake.direction s' = Snake.direction s /\
     (Snake.next_direction s' = Snake.next_direction s \/
      exists d, Snake.next_direction s' = Some d /\
                In d directions /\
                d <> opposite (Snake.direction s))).
Proof.
  split; [| split].
  - intros s d E. unfold Snake.update_direction. rewrite E.
    repeat split.
  - exact update_direction_idle.
  - intros s events s' Hk.
    destruct (handle_keys_spec events s s' Hk) as [_ [_ [Hd [_ Hn]]]].
    split; assumption.
Qed.

(** ** Claim C9 *)

(** C9 as stated fails on a tick that runs into the body.  In the scripted
    session the snake heads [DOWN] with its body one cell below; the only
    request of the frame is [UP]; the request is dropped, the move hits
    the body, and [reset] draws [LEFT]: the direction has changed. *)
Lemma reversal_request_on_crash :
  before_crash 2 = Ok (crash_game 2) /\
  Snake.next_direction (snake (crash_game 2)) = None /\
  Snake.direction (snake (crash_game 2)) = DOWN /\
  only_requests (opposite (Snake.direction (snake (crash_game 2))))
    [KEYDOWN K_UP] /\
  exists gm',
    tick (crash_game 2) [KEYDOWN K_UP] = Ok gm' /\
    Snake.direction (snake gm') = LEFT /\
    Snake.direction (snake gm') <> Snake.direction (snake (crash_game 2)).
Proof.
  split; [reflexivity | split; [reflexivity | split; [reflexivity |]]].
  split.
  - constructor; [reflexivity | constructor].
  - eexists. split; [reflexivity |]. split; [reflexivity | discriminate].
Qed.

(** C9, amended.  When nothing is pending and every arrow key of the frame
    asks for the opposite of the current direction, the input handler
    leaves the snake as it is and the move of this tick uses the unchanged
    direction; if that move does not run into the body, the tick completes
    and the direction after it is the one before it. *)
Theorem reversal_request_ignored {G : Type} `{RandomSource G}
  (gm : Game G) (events : list Event) :
  Snake.next_direction (snake gm) = None ->
  only_requests (opposite (Snake.direction (snake gm))) events ->
  handle_keys (snake gm) events = Ok (snake gm) /\
  committed (snake gm) events = Ok (Snake.direction (snake gm)) /\
  (forall p,
     Snake.new_pos (snake gm) = Ok p ->
     Snake.hits_body (snake gm) p = false ->
     exists gm',
       tick gm events = Ok gm' /\
       Snake.direction (snake gm') = Snake.direction (snake gm)).
Proof.
  intros Hnone Hreq.
  pose proof (handle_keys_reversals events (snake gm) Hreq) as Hk.
  pose proof (update_direction_idle (snake gm) Hnone) as Hu.
  split; [exact Hk | split].
  - unfold committed. rewrite Hk; cbn [bind]. rewrite Hu. reflexivity.
  - intros p Hnew Hfree.
    destruct (new_pos_head _ _ Hnew) as [h [rest Hpos]].
    destruct (drop_tail_insert_head (snake gm) p h rest Hpos)
      as [s' [Hdrop [Hhd [_ [Hdir _]]]]].
    assert (Hadv : advance (snake gm) (rng gm) = Ok (s', rng gm)).
    { unfold advance, Snake.move. rewrite Hu, Hnew; cbn [bind].
      rewrite Hfree, Hdrop. reflexivity. }
    assert (Htick : tick gm events = check_apple s' (apple gm) (rng gm)).
    { unfold tick. rewrite Hk; cbn [bind]. rewrite Hadv. reflexivity. }
    destruct (check_apple_spec s' (apple gm) (rng gm) p Hhd)
      as [[_ [a' [g' [_ Hc]]]] | [_ Hc]];
      eexists; (split; [rewrite Htick; exact Hc |]); cbn [snake]; exact Hdir.
Qed.

Lemma reversal_request_ignored_witness :
  let gm := mkGame Snake.init (Apple.mk (0, 0)) [3] in
  Snake.next_direction (snake gm) = None /\
  only_requests (opposite (Snake.direction (snake gm))) [KEYDOWN K_LEFT] /\
  handle_keys (snake gm) [KEYDOWN K_LEFT] = Ok (snake gm) /\
  committed (snake gm) [KEYDOWN K_LEFT] = Ok RIGHT.
Proof.
  intros gm.
  assert (Hreq : only_requests (opposite (Snake.direction (snake gm)))
                   [KEYDOWN K_LEFT])
    by (constructor; [reflexivity | constructor]).
  split; [reflexivity | split; [exact Hreq |]].
  destruct (reversal_request_ignored gm [KEYDOWN K_LEFT] eq_refl Hreq)
    as [Hk [Hc _]].
  split; [exact Hk | exact Hc].
Defined.

(** ** One tick, taken apart *)

Section TickFacts.
Context {G : Type} `{RandomSource G}.

Lemma tick_inv (gm gm' : Game G) (events : list Event) :
  tick gm events = Ok gm' ->
  exists s1 s2 g1,
    handle_keys (snake gm) events = Ok s1 /\
    advance s1 (rng gm) = Ok (s2, g1) /\
    check_apple s2 (apple gm) g1 = Ok gm'.
Proof.
  unfold tick.
  destruct (handle_keys (snake gm) events) as [s1 |]; [| discriminate].
  cbn [bind].
  destruct (advance s1 (rng gm)) as [[s2 g1] |] eqn:Hadv; [| discriminate].
  cbn [bind]. intros Hc. exists s1, s2, g1.
  split; [reflexivity | split; [exact Hadv | exact Hc]].
Qed.

(** The two ways out of [advance]: the reset of line 166, or the
    committed move. *)
Lemma advance_cases (s s2 : Snake.t) (g g1 : G) :
  advance s g = Ok (s2, g1) ->
  exists p,
    Snake.new_pos (Snake.update_direction s) = Ok p /\
    ((Snake.hits_body (Snake.update_direction s) p = true /\
      exists d, In d directions /\
                choice directions g = Ok (d, g1) /\
                s2 = reset_snake d) \/
     (Snake.hits_body (Snake.update_direction s) p = false /\
      g1 = g /\
      Snake.drop_tail (Snake.insert_head (Snake.update_direction s) p)
        = Ok s2)).
Proof.
  unfold advance, Snake.move.
  destruct (Snake.new_pos (Snake.update_direction s)) as [p |];
    [| discriminate].
  cbn [bind]. intros Hm. exists p. split; [reflexivity |].
  destruct (Snake.hits_body (Snake.update_direction s) p).
  - left. split; [reflexivity |].
    destruct (reset_ok (Snake.update_direction s) g) as [d [Hc [Hd Hr]]].
    rewrite Hr, update_direction_clears in Hm.
    inversion Hm; subst. exists d. repeat split; assumption.
  - right. split; [reflexivity |].
    destruct (Snake.drop_tail _) as [s' |]; [| discriminate].
    cbn [bind] in Hm. inversion Hm; subst. split; reflexivity.
Qed.

Lemma advance_crash (s : Snake.t) (g : G) (p : Cell) :
  Snake.new_pos (Snake.update_direction s) = Ok p ->
  Snake.hits_body (Snake.update_direction s) p = true ->
  exists d,
    In d directions /\
    choice directions g = Ok (d, snd (randbelow 4 g)) /\
    advance s g = Ok (reset_snake d, snd (randbelow 4 g)).
Proof.
  intros Hnew Hhit.
  destruct (reset_ok (Snake.update_direction s) g) as [d [Hc [Hd Hr]]].
  exists d. split; [exact Hd | split; [exact Hc |]].
  unfold advance, Snake.move. rewrite Hnew; cbn [bind].
  rewrite Hhit, Hr, update_direction_clears. reflexivity.
Qed.

Lemma run_reachable (frames : list (list Event)) :
  forall gm gm' : Game G,
    reachable gm -> run gm frames = Ok gm' -> reachable gm'.
Proof.
  induction frames as [| events rest IH]; intros gm gm' Hr Hrun.
  - inversion Hrun; subst; exact Hr.
  - cbn [run] in Hrun.
    destruct (tick gm events) as [gm1 |] eqn:Ht; [| discriminate].
    cbn [bind] in Hrun.
    apply (IH gm1 gm'); [| exact Hrun].
    exact (reachable_tick gm events gm1 Hr Ht).
Qed.
End TickFacts.

Lemma crash_game_reachable (reset_draw : Z) : reachable (crash_game reset_draw).
Proof.
  apply (run_reachable session_frames
           (mkGame Snake.init (Apple.mk (340, 240))
              (skipn 2 (session_script reset_draw)))).
  - apply (reachable_start (session_script reset_draw)). reflexivity.
  - reflexivity.
Qed.

(** ** Invariants of the loop *)

Lemma drop_tail_settles (s s' : Snake.t) (p : Cell) :
  Snake.positions s <> [] ->
  segments s = Snake.length s \/ segments s + 1 = Snake.length s ->
  Snake.drop_tail (Snake.insert_head s p) = Ok s' ->
  segments s' = Snake.length s' /\
  Snake.length s' = Snake.length s /\
  Snake.direction s' = Snake.direction s /\
  Snake.next_direction s' = Snake.next_direction s /\
  hd_error (Snake.positions s') = Some p.
Proof.
  intros Hne Hlen Hdrop.
  destruct (Snake.positions s) as [| h rest] eqn:Hpos; [congruence |].
  destruct (drop_tail_insert_head s p h rest Hpos)
    as [s1 [Hdrop1 [Hhd [Hl [Hd [Hn Hcase]]]]]].
  rewrite Hdrop in Hdrop1. inversion Hdrop1; subst s1.
  repeat split; try assumption.
  unfold segments in *. rewrite Hpos in *.
  destruct Hcase as [[Hgt [Hp' _]] | [Hle [Hp' _]]]; rewrite Hp', Hl.
  - cbn [List.length] in *. rewrite removelast_cons_length. lia.
  - cbn [List.length] in *. lia.
Qed.

Section Invariants.
Context {G : Type} `{RandomSource G}.

Lemma advance_settles (s s2 : Snake.t) (g g1 : G) :
  Snake.positions s <> [] ->
  segments s = Snake.length s \/ segments s + 1 = Snake.length s ->
  advance s g = Ok (s2, g1) ->
  segments s2 = Snake.length s2 /\
  Snake.positions s2 <> [] /\
  Snake.next_direction s2 = None /\
  (In (Snake.direction (Snake.update_direction s)) directions ->
   In (Snake.direction s2) directions).
Proof.
  intros Hne Hlen Hadv.
  destruct (advance_cases s s2 g g1 Hadv)
    as [p [Hnew [[Hhit [d [Hd [_ ->]]]] | [Hfree [-> Hdrop]]]]].
  - repeat split; [discriminate | intros _; exact Hd].
  - apply drop_tail_settles in Hdrop.
    + destruct Hdrop as [Hseg [_ [Hdir [Hnext Hhd]]]].
      split; [exact Hseg |]. split.
      * intros E; rewrite E in Hhd; discriminate.
      * split; [rewrite Hnext; apply update_direction_clears |].
        rewrite Hdir; auto.
    + rewrite update_direction_positions; exact Hne.
    + unfold segments in *.
      rewrite update_direction_positions, update_direction_length.
      exact Hlen.
Qed.

Lemma committed_direction (s s1 : Snake.t) (events : list Event) :
  Snake.next_direction s = None ->
  In (Snake.direction s) directions ->
  handle_keys s events = Ok s1 ->
  In (Snake.direction (Snake.update_direction s1)) directions /\
  Snake.direction (Snake.update_direction s1)
    <> opposite (Snake.direction s).
Proof.
  intros Hnone Hdir Hk.
  destruct (handle_keys_spec events s s1 Hk) as [_ [_ [Hd [_ Hn]]]].
  unfold Snake.update_direction.
  destruct Hn as [Hn | [d [Hn [Hin Hopp]]]]; rewrite Hn.
  - rewrite Hnone, Hd.
    split; [exact Hdir | apply direction_not_self_opposite; exact Hdir].
  - cbn [Snake.direction]. split; assumption.
Qed.

Lemma reachable_snake_inv (gm : Game G) :
  reachable gm -> snake_inv (snake gm).
Proof.
  induction 1 as [g gm Hstart | gm events gm' Hr IH Htick].
  - unfold start in Hstart.
    destruct (Apple.init g) as [[a g'] |]; [| discriminate].
    inversion Hstart; subst. unfold snake_inv; cbn.
    repeat split; [discriminate | left; reflexivity | auto 10].
  - destruct IH as [Hne [Hlen [Hnone Hdir]]].
    destruct (tick_inv gm gm' events Htick)
      as [s1 [s2 [g1 [Hk [Hadv Hc]]]]].
    destruct (handle_keys_spec events _ _ Hk) as [Hl1 [Hp1 _]].
    destruct (committed_direction _ _ _ Hnone Hdir Hk) as [Hin _].
    destruct (advance_settles s1 s2 (rng gm) g1) as [Hseg [Hne2 [Hn2 Hd2]]];
      [rewrite Hp1; exact Hne
      | unfold segments in *; rewrite Hp1, Hl1; exact Hlen
      | exact Hadv |].
    specialize (Hd2 Hin).
    destruct (Snake.positions s2) as [| h rest] eqn:Hpos2; [congruence |].
    destruct (check_apple_spec s2 (apple gm) g1 h)
      as [[_ [a' [g' [_ Hc']]]] | [_ Hc']];
      [rewrite Hpos2; reflexivity | |];
      rewrite Hc' in Hc; inversion Hc; subst gm';
      unfold snake_inv, segments in *;
      cbn [snake Snake.grow Snake.positions Snake.length
           Snake.direction Snake.next_direction];
      rewrite ?Hpos2 in *;
      (split; [discriminate | split; [lia | split; assumption]]).
Qed.
End Invariants.

Lemma start_game_reachable :
  reachable (mkGame Snake.init (Apple.mk (340, 240)) [18; 12]).
Proof. apply (reachable_start [17; 12; 18; 12]). reflexivity. Qed.

(** ** Claim C3 *)

(** C3.  At the top of any iteration that the loop can reach, once the
    input is handled: if the move does not run into the body, the number
    of segments right after the insertion of the new head (before lines
    173-176 decide on the tail) is [length] or [length + 1], and after
    them it is exactly [length]; and whichever way [advance] returns, the
    snake it returns has exactly [length] segments. *)
Theorem length_tracks_target {G : Type} `{RandomSource G}
  (gm : Game G) (events : list Event) (s1 : Snake.t) :
  reachable gm ->
  handle_keys (snake gm) events = Ok s1 ->
  (forall p,
     Snake.new_pos (Snake.update_direction s1) = Ok p ->
     Snake.hits_body (Snake.update_direction s1) p = false ->
     let before := Snake.insert_head (Snake.update_direction s1) p in
     (segments before = Snake.length before \/
      segments before = Snake.length before + 1) /\
     exists after,
       Snake.drop_tail before = Ok after /\
       advance s1 (rng gm) = Ok (after, rng gm) /\
       Snake.length after = Snake.length before /\
       segments after = Snake.length after) /\
  (forall s2 g1,
     advance s1 (rng gm) = Ok (s2, g1) -> segments s2 = Snake.length s2).
Proof.
  intros Hr Hk.
  destruct (reachable_snake_inv gm Hr) as [Hne [Hlen _]].
  destruct (handle_keys_spec events _ _ Hk) as [Hl1 [Hp1 _]].
  assert (Hne1 : Snake.positions s1 <> []) by (rewrite Hp1; exact Hne).
  assert (Hlen1 : segments s1 = Snake.length s1 \/
                  segments s1 + 1 = Snake.length s1)
    by (unfold segments in *; rewrite Hp1, Hl1; exact Hlen).
  split.
  - intros p Hnew Hfree before.
    assert (Hne2 : Snake.positions (Snake.update_direction s1) <> [])
      by (rewrite update_direction_positions; exact Hne1).
    assert (Hlen2 : segments (Snake.update_direction s1)
                      = Snake.length (Snake.update_direction s1) \/
                    segments (Snake.update_direction s1) + 1
                      = Snake.length (Snake.update_direction s1))
      by (unfold segments in *;
          rewrite update_direction_positions, update_direction_length;
          exact Hlen1).
    split.
    + unfold before, segments in *.
      cbn [Snake.insert_head Snake.positions Snake.length List.length].
      lia.
    + destruct (Snake.positions (Snake.update_direction s1))
        as [| h rest] eqn:Hpos; [congruence |].
      destruct (drop_tail_insert_head _ p h rest Hpos)
        as [after [Hdrop _]].
      exists after. split; [exact Hdrop |].
      assert (Hne3 : Snake.positions (Snake.update_direction s1) <> [])
        by (rewrite Hpos; discriminate).
      destruct (drop_tail_settles _ _ p Hne3 Hlen2 Hdrop)
        as [Hseg [Hl _]].
      split; [| split; [exact Hl | exact Hseg]].
      unfold advance, Snake.move. rewrite Hnew; cbn [bind].
      rewrite Hfree. fold before. unfold before. rewrite Hdrop. reflexivity.
  - intros s2 g1 Hadv.
    destruct (advance_settles s1 s2 (rng gm) g1 Hne1 Hlen1 Hadv) as [Hseg _].
    exact Hseg.
Qed.

Lemma length_tracks_target_witness :
  let gm := mkGame Snake.init (Apple.mk (340, 240)) [18; 12] in
  reachable gm /\
  handle_keys (snake gm) [KEYDOWN K_UP] = Ok (set_next_direction Snake.init UP) /\
  forall s2 g1,
    advance (set_next_direction Snake.init UP) (rng gm) = Ok (s2, g1) ->
    segments s2 = Snake.length s2.
Proof.
  intros gm.
  split; [exact start_game_reachable | split; [reflexivity |]].
  exact (proj2 (length_tracks_target gm [KEYDOWN K_UP]
                  (set_next_direction Snake.init UP)
                  start_game_reachable eq_refl)).
Defined.

(** ** Claim C5 *)

(** C5 as stated fails when the apple lies on the centre cell.  In the
    scripted session the apple is at (320, 240) when the snake runs into
    its body: the reset puts the head on the apple, the check of line 252
    succeeds, [length] becomes 2 and the apple moves to (100, 140). *)
Lemma crash_tick_eats_at_center :
  reachable (crash_game 0) /\
  crashes (snake (crash_game 0)) [] /\
  Apple.position (apple (crash_game 0)) = center /\
  exists gm',
    tick (crash_game 0) [] = Ok gm' /\
    Snake.positions (snake gm') = [center] /\
    Snake.length (snake gm') = 2 /\
    apple gm' = Apple.mk (100, 140) /\
    apple gm' <> apple (crash_game 0).
Proof.
  split; [apply crash_game_reachable |].
  split; [exists (snake (crash_game 0)), (380, 240); repeat split |].
  split; [reflexivity |].
  eexists. split; [reflexivity |].
  repeat split. discriminate.
Qed.

(** C5, amended.  On a tick whose move runs into the body, [move] returns
    right after the reset, but the loop still compares the head, now at
    the centre, with the apple.  For every apple position other than the
    centre cell the tick ends with the reset snake ([length] 1) and the
    apple where it was; with the apple on the centre cell it ends with
    [length] 2 and the apple relocated. *)
Theorem crash_tick_apple_check {G : Type} `{RandomSource G}
  (gm : Game G) (events : list Event) :
  crashes (snake gm) events ->
  exists d g1,
    choice directions (rng gm) = Ok (d, g1) /\
    In d directions /\
    (Apple.position (apple gm) <> center ->
     tick gm events = Ok (mkGame (reset_snake d) (apple gm) g1)) /\
    (Apple.position (apple gm) = center ->
     exists a' g2,
       Apple.randomize_position (apple gm) g1 = Ok (a', g2) /\
       tick gm events = Ok (mkGame (Snake.grow (reset_snake d)) a' g2) /\
       Snake.length (Snake.grow (reset_snake d)) = 2).
Proof.
  intros [s1 [p [Hk [Hnew Hhit]]]].
  destruct (advance_crash s1 (rng gm) p Hnew Hhit) as [d [Hd [Hc Hadv]]].
  exists d, (snd (randbelow 4 (rng gm))).
  split; [exact Hc | split; [exact Hd |]].
  assert (Htick : tick gm events
                  = check_apple (reset_snake d) (apple gm)
                      (snd (randbelow 4 (rng gm)))).
  { unfold tick. rewrite Hk; cbn [bind]. rewrite Hadv. reflexivity. }
  destruct (check_apple_spec (reset_snake d) (apple gm)
              (snd (randbelow 4 (rng gm))) center eq_refl)
    as [[Heq [a' [g2 [Hrel Hchk]]]] | [Hneq Hchk]].
  - split; [intros Hne; congruence |].
    intros _. exists a', g2.
    split; [exact Hrel | split; [| reflexivity]].
    rewrite Htick. exact Hchk.
  - split; [intros _; rewrite Htick; exact Hchk |].
    intros Heq; congruence.
Qed.

Lemma crash_tick_apple_check_witness :
  let gm := mkGame (snake (crash_game 1)) (Apple.mk (0, 0)) [1; 5; 7] in
  crashes (snake gm) [] /\
  exists d g1,
    choice directions (rng gm) = Ok (d, g1) /\
    tick gm [] = Ok (mkGame (reset_snake d) (apple gm) g1).
Proof.
  intros gm.
  assert (Hcrash : crashes (snake gm) [])
    by (exists (snake gm), (380, 240); repeat split).
  split; [exact Hcrash |].
  destruct (crash_tick_apple_check gm [] Hcrash)
    as [d [g1 [Hc [_ [Hfar _]]]]].
  exists d, g1. split; [exact Hc |].
  apply Hfar. discriminate.
Defined.

(** ** Claim C6 *)

(** C6 as stated fails on a reset.  In the scripted session the tick of
    the crash commits [DOWN], the reset draws [UP], and the next tick,
    with no input at all, commits [UP]: the opposite of the direction
    committed one tick earlier. *)
Lemma reset_may_reverse :
  reachable (crash_game 0) /\
  committed (snake (crash_game 0)) [] = Ok DOWN /\
  exists gm',
    tick (crash_game 0) [] = Ok gm' /\
    Snake.direction (snake gm') = UP /\
    committed (snake gm') [] = Ok UP /\
    UP = opposite DOWN.
Proof.
  split; [apply crash_game_reachable | split; [reflexivity |]].
  eexists. split; [reflexivity |]. repeat split.
Qed.

(** C6, amended.  In every game the loop can reach, the direction
    committed on a tick is never the opposite of the direction the snake
    had when the tick began; when the previous tick did not run into the
    body, that is the direction committed on the previous tick.  On a tick
    that runs into the body the direction is redrawn among all four, and
    the next committed direction is only known not to reverse the drawn
    one. *)
Theorem no_reversal_between_ticks {G : Type} `{RandomSource G}
  (gm gm' : Game G) (events events' : list Event) (d d' : Direction) :
  reachable gm ->
  tick gm events = Ok gm' ->
  committed (snake gm) events = Ok d ->
  committed (snake gm') events' = Ok d' ->
  d <> opposite (Snake.direction (snake gm)) /\
  d' <> opposite (Snake.direction (snake gm')) /\
  (~ crashes (snake gm) events ->
   Snake.direction (snake gm') = d /\ d' <> opposite d) /\
  (crashes (snake gm) events ->
   exists g1, choice directions (rng gm)
              = Ok (Snake.direction (snake gm'), g1)).
Proof.
  intros Hr Htick Hd Hd'.
  pose proof (reachable_tick gm events gm' Hr Htick) as Hr'.
  destruct (reachable_snake_inv gm Hr) as [_ [_ [Hnone Hdir]]].
  destruct (reachable_snake_inv gm' Hr') as [_ [_ [Hnone' Hdir']]].
  destruct (tick_inv gm gm' events Htick) as [s1 [s2 [g1 [Hk [Hadv Hc]]]]].
  unfold committed in Hd, Hd'. rewrite Hk in Hd; cbn [bind] in Hd.
  inversion Hd; subst d; clear Hd.
  destruct (handle_keys (snake gm') events') as [s1' |] eqn:Hk';
    [| discriminate].
  cbn [bind] in Hd'. inversion Hd'; subst d'; clear Hd'.
  destruct (committed_direction _ _ _ Hnone Hdir Hk) as [_ Hopp].
  destruct (committed_direction _ _ _ Hnone' Hdir' Hk') as [_ Hopp'].
  destruct (check_apple_direction _ _ _ _ Hc) as [Hdc _].
  split; [exact Hopp | split; [exact Hopp' |]].
  destruct (advance_cases s1 s2 (rng gm) g1 Hadv)
    as [p [Hnew [[Hhit [d [_ [Hch ->]]]] | [Hfree [-> Hdrop]]]]].
  - split.
    + intros Hno. exfalso. apply Hno. exists s1, p. repeat split; assumption.
    + intros _. exists g1. rewrite Hdc. exact Hch.
  - assert (Hsame : Snake.direction (snake gm')
                    = Snake.direction (Snake.update_direction s1)).
    { destruct (new_pos_head _ _ Hnew) as [h [rest Hpos]].
      destruct (drop_tail_insert_head _ p h rest Hpos)
        as [s' [Hdrop' [_ [_ [Hdir2 _]]]]].
      rewrite Hdrop in Hdrop'. inversion Hdrop'; subst s'.
      rewrite Hdc. exact Hdir2. }
    split.
    + intros _. split; [exact Hsame | rewrite <- Hsame; exact Hopp'].
    + intros [s1c [pc [Hkc [Hnewc Hhitc]]]].
      rewrite Hk in Hkc. inversion Hkc; subst s1c.
      rewrite Hnew in Hnewc. inversion Hnewc; subst pc.
      rewrite Hfree in Hhitc. discriminate.
Qed.

Lemma no_reversal_between_ticks_witness :
  let gm := mkGame Snake.init (Apple.mk (340, 240)) [18; 12] in
  let gm' := mkGame (Snake.mk 1 [(320, 220)] UP None (Some (320, 240)))
               (Apple.mk (340, 240)) [18; 12] in
  reachable gm /\
  tick gm [KEYDOWN K_UP] = Ok gm' /\
  committed (snake gm) [KEYDOWN K_UP] = Ok UP /\
  committed (snake gm') [KEYDOWN K_DOWN] = Ok UP /\
  UP <> opposite (Snake.direction (snake gm')).
Proof.
  intros gm gm'.
  split; [exact start_game_reachable |].
  split; [reflexivity | split; [reflexivity | split; [reflexivity |]]].
  exact (proj1 (proj2 (no_reversal_between_ticks gm gm'
                         [KEYDOWN K_UP] [KEYDOWN K_DOWN] UP UP
                         start_game_reachable eq_refl eq_refl eq_refl))).
Defined.

(** ** Claim C8 *)

Lemma cell_of_on_grid (c : Cell) :
  on_grid c ->
  exists cx cy,
    c = (cx * GRID_SIZE, cy * GRID_SIZE) /\
    0 <= cx < GRID_WIDTH /\ 0 <= cy < GRID_HEIGHT.
Proof.
  destruct c as [x y]. unfold on_grid; cbn [fst snd].
  intros [[Hx Hxr] [Hy Hyr]].
  apply Z.div_exact in Hx; [| discriminate].
  apply Z.div_exact in Hy; [| discriminate].
  exists (x / GRID_SIZE), (y / GRID_SIZE).
  change GRID_WIDTH with 32; change GRID_HEIGHT with 24.
  change SCREEN_WIDTH with 640 in *; change SCREEN_HEIGHT with 480 in *.
  change GRID_SIZE with 20 in *.
  split; [f_equal; lia | lia].
Qed.

Lemma on_grid_of_cell (cx cy : Z) :
  0 <= cx < GRID_WIDTH -> 0 <= cy < GRID_HEIGHT ->
  on_grid (cx * GRID_SIZE, cy * GRID_SIZE).
Proof.
  intros Hx Hy. unfold on_grid; cbn [fst snd].
  rewrite !Z.mod_mul by discriminate.
  change GRID_WIDTH with 32 in *; change GRID_HEIGHT with 24 in *.
  change SCREEN_WIDTH with 640; change SCREEN_HEIGHT with 480.
  change GRID_SIZE with 20. lia.
Qed.

Lemma script_randomize_position (a : Apple.t) (cx cy : Z) (g : list Z) :
  0 <= cx < GRID_WIDTH -> 0 <= cy < GRID_HEIGHT ->
  Apple.randomize_position a (cx :: cy :: g)
  = Ok (Apple.mk (cx * GRID_SIZE, cy * GRID_SIZE), g).
Proof.
  intros Hx Hy. unfold Apple.randomize_position, randint.
  change (GRID_WIDTH - 1 + 1 - 0) with GRID_WIDTH.
  change (GRID_HEIGHT - 1 + 1 - 0) with GRID_HEIGHT.
  change (GRID_WIDTH <=? 0) with false. change (GRID_HEIGHT <=? 0) with false.
  cbn [randbelow script_source script_randbelow bind].
  rewrite (Z.mod_small cx), (Z.mod_small cy) by assumption.
  reflexivity.
Qed.

(** C8.  [randomize_position] takes the random source and nothing else.
    (1) Whatever the state of the source, it makes exactly two draws, a
    column below [GRID_WIDTH] and then a row below [GRID_HEIGHT], and
    returns that cell of the full grid: there is no test and no second
    attempt.  (2) In the apple check, two snakes that both reach the apple
    get the same new apple from the same source state: the segments play
    no part.  (3) The draws and the cells of the grid correspond one to
    one, so uniform draws give a uniform cell.  (4) The new apple can fall
    on a segment of the snake: for every segment there is a source state
    that puts it there. *)
Theorem relocation_ignores_snake :
  (forall (G : Type) (R : RandomSource G) (a : Apple.t) (g : G),
     let column := randbelow GRID_WIDTH g in
     let row := randbelow GRID_HEIGHT (snd column) in
     Apple.randomize_position a g
       = Ok (Apple.mk (fst column * GRID_SIZE, fst row * GRID_SIZE), snd row)
     /\ 0 <= fst column < GRID_WIDTH /\ 0 <= fst row < GRID_HEIGHT) /\
  (forall (G : Type) (R : RandomSource G) (s1 s2 : Snake.t) (a : Apple.t)
          (g : G) (gm1 gm2 : Game G),
     hd_error (Snake.positions s1) = Some (Apple.position a) ->
     hd_error (Snake.positions s2) = Some (Apple.position a) ->
     check_apple s1 a g = Ok gm1 ->
     check_apple s2 a g = Ok gm2 ->
     apple gm1 = apple gm2 /\ rng gm1 = rng gm2) /\
  (forall c : Cell,
     on_grid c ->
     exists cx cy,
       (0 <= cx < GRID_WIDTH /\ 0 <= cy < GRID_HEIGHT) /\
       (forall a g, Apple.randomize_position a (cx :: cy :: g)
                    = Ok (Apple.mk c, g)) /\
       (forall cx' cy', (cx' * GRID_SIZE, cy' * GRID_SIZE) = c ->
                        cx' = cx /\ cy' = cy)) /\
  (forall (s : Snake.t) (a : Apple.t) (c : Cell),
     hd_error (Snake.positions s) = Some (Apple.position a) ->
     In c (Snake.positions s) ->
     on_grid c ->
     exists (g : list Z) (gm' : Game (list Z)),
       check_apple s a g = Ok gm' /\
       Apple.position (apple gm') = c /\
       In (Apple.position (apple gm')) (Snake.positions (snake gm'))).
Proof.
  split; [| split; [| split]].
  - intros G R a g column row.
    pose proof (randbelow_range GRID_WIDTH g eq_refl) as Hc.
    pose proof (randbelow_range GRID_HEIGHT (snd column) eq_refl) as Hr.
    fold column in Hc. fold row in Hr.
    split; [| split; assumption].
    unfold Apple.randomize_position, randint.
    change (GRID_WIDTH - 1 + 1 - 0) with GRID_WIDTH.
    change (GRID_HEIGHT - 1 + 1 - 0) with GRID_HEIGHT.
    change (GRID_WIDTH <=? 0) with false.
    change (GRID_HEIGHT <=? 0) with false.
    cbv iota. fold column. destruct column as [cx g1]. cbn [bind fst snd] in *.
    fold row. destruct row as [cy g2]. reflexivity.
  - intros G R s1 s2 a g gm1 gm2 H1 H2 Hc1 Hc2.
    destruct (check_apple_spec s1 a g _ H1)
      as [[_ [a1 [g1 [Hr1 Hk1]]]] | [Hne _]]; [| congruence].
    destruct (check_apple_spec s2 a g _ H2)
      as [[_ [a2 [g2 [Hr2 Hk2]]]] | [Hne _]]; [| congruence].
    rewrite Hk1 in Hc1. rewrite Hk2 in Hc2. rewrite Hr1 in Hr2.
    inversion Hc1; inversion Hc2; inversion Hr2; subst.
    split; reflexivity.
  - intros c Hc.
    destruct (cell_of_on_grid c Hc) as [cx [cy [-> [Hx Hy]]]].
    exists cx, cy. split; [split; assumption | split].
    + intros a g. apply script_randomize_position; assumption.
    + intros cx' cy' E. inversion E.
      change GRID_SIZE with 20 in *. lia.
  - intros s a c Hhd Hin Hc.
    destruct (cell_of_on_grid c Hc) as [cx [cy [-> [Hx Hy]]]].
    destruct (check_apple_spec s a [cx; cy] _ Hhd)
      as [[_ [a' [g' [Hr Hk]]]] | [Hne _]]; [| congruence].
    rewrite script_randomize_position in Hr by assumption.
    inversion Hr; subst a' g'.
    exists [cx; cy]. eexists. split; [exact Hk |].
    split; [reflexivity | exact Hin].
Qed.

(** ** Claim C10 *)

Lemma Forall_removelast {A : Type} (P : A -> Prop) (l : list A) :
  Forall P l -> Forall P (removelast l).
Proof.
  induction 1 as [| x l Hx Hl IH]; [constructor |].
  destruct l as [| y l]; [constructor |].
  change (removelast (x :: y :: l)) with (x :: removelast (y :: l)).
  constructor; assumption.
Qed.

Lemma step_mod_grid (x d n : Z) :
  x mod GRID_SIZE = 0 ->
  ((x + d * GRID_SIZE) mod (n * GRID_SIZE)) mod GRID_SIZE = 0.
Proof.
  intros Hx. apply Z.div_exact in Hx; [| discriminate].
  rewrite Hx.
  replace (GRID_SIZE * (x / GRID_SIZE) + d * GRID_SIZE)
    with ((x / GRID_SIZE + d) * GRID_SIZE) by ring.
  destruct (Z.eq_dec n 0) as [-> | Hn].
  - change (0 * GRID_SIZE) with 0. rewrite Z.mod_0_r.
    apply Z.mod_mul; discriminate.
  - rewrite Z.mul_mod_distr_r by (assumption || discriminate).
    apply Z.mod_mul; discriminate.
Qed.

(** The candidate head of a snake whose head is on the grid is on the
    grid, whatever the direction vector. *)
Lemma new_pos_on_grid (s : Snake.t) (p : Cell) :
  Forall on_grid (Snake.positions s) ->
  Snake.new_pos s = Ok p ->
  on_grid p.
Proof.
  unfold Snake.new_pos, Snake.get_head_position.
  destruct (Snake.positions s) as [| h rest]; [discriminate |].
  intros Hall. inversion Hall as [| ? ? [[Hx _] [Hy _]] _]; subst.
  cbn [bind]. destruct (Snake.direction s) as [dx dy].
  intros E; inversion E; subst p. unfold on_grid; cbn [fst snd].
  change SCREEN_WIDTH with (GRID_WIDTH * GRID_SIZE) at 1.
  change SCREEN_HEIGHT with (GRID_HEIGHT * GRID_SIZE) at 1.
  rewrite !step_mod_grid by assumption.
  repeat split; try reflexivity; apply Z.mod_pos_bound; reflexivity.
Qed.

Section Grid.
Context {G : Type} `{RandomSource G}.

Lemma randomize_position_on_grid (a a' : Apple.t) (g g' : G) :
  Apple.randomize_position a g = Ok (a', g') ->
  on_grid (Apple.position a').
Proof.
  intros Hr.
  destruct (randomize_position_ok a g) as [cx [cy [g2 [E [Hx Hy]]]]].
  rewrite E in Hr. inversion Hr; subst.
  apply on_grid_of_cell; assumption.
Qed.

Lemma advance_on_grid (s s' : Snake.t) (g g' : G) :
  Forall on_grid (Snake.positions s) ->
  advance s g = Ok (s', g') ->
  Forall on_grid (Snake.positions s').
Proof.
  intros Hall Hadv.
  assert (Hall' : Forall on_grid
                    (Snake.positions (Snake.update_direction s)))
    by (rewrite update_direction_positions; exact Hall).
  destruct (advance_cases s s' g g' Hadv)
    as [p [Hnew [[_ [d [_ [_ ->]]]] | [_ [_ Hdrop]]]]].
  - constructor; [exact center_on_grid | constructor].
  - pose proof (new_pos_on_grid _ _ Hall' Hnew) as Hp.
    destruct (new_pos_head _ _ Hnew) as [h [rest Hpos]].
    destruct (drop_tail_insert_head _ p h rest Hpos)
      as [s1 [Hdrop1 [_ [_ [_ [_ Hcase]]]]]].
    rewrite Hdrop in Hdrop1. inversion Hdrop1; subst s1.
    rewrite Hpos in Hall'.
    destruct Hcase as [[_ [-> _]] | [_ [-> _]]]; constructor;
      try assumption.
    apply Forall_removelast. exact Hall'.
Qed.

Lemma op_reachable_on_grid (s : Snake.t) (a : Apple.t) :
  op_reachable G s a ->
  Forall on_grid (Snake.positions s) /\ on_grid (Apple.position a).
Proof.
  induction 1 as [g a g' Hinit
                 | s a events s' _ [IHs IHa] Hk
                 | s a g s' g' _ [IHs IHa] Hadv
                 | s a _ [IHs IHa]
                 | s a g s' g' _ [IHs IHa] Hreset
                 | s a g a' g' _ [IHs IHa] Hrel].
  - split.
    + constructor; [exact center_on_grid | constructor].
    + unfold Apple.init in Hinit.
      exact (randomize_position_on_grid _ _ _ _ Hinit).
  - destruct (handle_keys_spec events s s' Hk) as [_ [Hp _]].
    rewrite Hp. split; assumption.
  - split; [exact (advance_on_grid s s' g g' IHs Hadv) | exact IHa].
  - split; assumption.
  - destruct (reset_ok s g) as [d [_ [_ Hr]]].
    rewrite Hr in Hreset. inversion Hreset; subst.
    split; [constructor; [exact center_on_grid | constructor] | exact IHa].
  - split; [exact IHs | exact (randomize_position_on_grid _ _ _ _ Hrel)].
Qed.

(** The loop only does what the operations allow. *)
Lemma reachable_op_reachable (gm : Game G) :
  reachable gm -> op_reachable G (snake gm) (apple gm).
Proof.
  induction 1 as [g gm Hstart | gm events gm' Hr IH Htick].
  - unfold start in Hstart.
    destruct (Apple.init g) as [[a g'] |] eqn:Hinit; [| discriminate].
    inversion Hstart; subst. exact (op_construct g a g' Hinit).
  - destruct (tick_inv gm gm' events Htick)
      as [s1 [s2 [g1 [Hk [Hadv Hc]]]]].
    pose proof (op_input _ _ _ _ IH Hk) as R1.
    pose proof (op_advance _ _ _ _ _ R1 Hadv) as R2.
    unfold check_apple in Hc.
    destruct (Snake.get_head_position s2) as [h |]; [| discriminate].
    cbn [bind] in Hc.
    destruct (pair_eqb h (Apple.position (apple gm))).
    + destruct (Apple.randomize_position (apple gm) g1)
        as [[a' g2] |] eqn:Hrel; [| discriminate].
      inversion Hc; subst gm'. cbn [snake apple].
      exact (op_relocate _ _ _ _ _ (op_grow _ _ R2) Hrel).
    + inversion Hc; subst gm'. exact R2.
Qed.
End Grid.

(** C10.  In every state that construction followed by any sequence of
    key handling, [advance], [grow], [reset] and apple relocation can
    produce, and so in every game the loop can reach, each coordinate of
    each segment of the snake and of the apple is a multiple of
    [GRID_SIZE], with [0 <= x < SCREEN_WIDTH] and [0 <= y < SCREEN_HEIGHT]. *)
Theorem positions_stay_on_grid {G : Type} `{RandomSource G} :
  (forall (s : Snake.t) (a : Apple.t),
     op_reachable G s a ->
     (forall x y, In (x, y) (Snake.positions s) \/ (x, y) = Apple.position a ->
        x mod GRID_SIZE = 0 /\ y mod GRID_SIZE = 0 /\
        0 <= x < SCREEN_WIDTH /\ 0 <= y < SCREEN_HEIGHT)) /\
  (forall gm : Game G,
     reachable gm -> op_reachable G (snake gm) (apple gm)).
Proof.
  split; [| exact reachable_op_reachable].
  intros s a Hr x y Hxy.
  destruct (op_reachable_on_grid s a Hr) as [Hs Ha].
  assert (Hon : on_grid (x, y)).
  { destruct Hxy as [Hin | ->]; [| exact Ha].
    rewrite Forall_forall in Hs. exact (Hs _ Hin). }
  destruct Hon as [[Hx Hxr] [Hy Hyr]]. cbn [fst snd] in *.
  repeat split; try assumption; lia.
Qed.


(** * Further properties of the code *)

(** ** The shape of a committed move *)

(** X1.  A move that does not run into the body puts the candidate head in
    front and makes no random draw.  When the snake is shorter than
    [length] nothing else changes and [last] is emptied; otherwise the
    last segment, and only it, is removed and recorded in [last], so every
    other segment keeps its place in the order and the count is unchanged. *)
Theorem committed_move_shape {G : Type} `{RandomSource G}
  (s s' : Snake.t) (g g' : G) (p : Cell) :
  Snake.new_pos (Snake.update_direction s) = Ok p ->
  Snake.hits_body (Snake.update_direction s) p = false ->
  advance s g = Ok (s', g') ->
  g' = g /\
  Snake.length s' = Snake.length s /\
  Snake.direction s' = Snake.direction (Snake.update_direction s) /\
  (segments s < Snake.length s ->
   Snake.positions s' = p :: Snake.positions s /\ Snake.last s' = None) /\
  (Snake.length s <= segments s ->
   Snake.positions s' = p :: removelast (Snake.positions s) /\
   Snake.last s' = Some (List.last (Snake.positions s) p) /\
   segments s' = segments s).
Proof.
  intros Hnew Hfree Hadv.
  destruct (advance_cases s s' g g' Hadv)
    as [q [Hq [[Hhit _] | [_ [Hg Hdrop]]]]];
    rewrite Hnew in Hq; inversion Hq; subst q; [congruence |].
  destruct (new_pos_head _ _ Hnew) as [h [rest Hpos]].
  destruct (drop_tail_insert_head _ p h rest Hpos)
    as [s1 [Hdrop1 [_ [Hl [Hd [_ Hcase]]]]]].
  rewrite Hdrop in Hdrop1. inversion Hdrop1; subst s1.
  rewrite update_direction_length in Hl.
  rewrite update_direction_positions in Hpos.
  unfold segments in *.
  rewrite update_direction_positions, update_direction_length in Hcase.
  rewrite Hpos in *.
  split; [exact Hg | split; [exact Hl | split; [exact Hd |]]].
  destruct Hcase as [[Hgt [Hp' Hla]] | [Hle [Hp' Hla]]]; split; intros Hc;
    try lia.
  - split; [exact Hp' | split].
    + rewrite Hla, last_cons. reflexivity.
    + rewrite Hp'. cbn [List.length]. rewrite removelast_cons_length.
      reflexivity.
  - split; [exact Hp' | exact Hla].
Qed.

Lemma committed_move_shape_witness :
  Snake.new_pos (Snake.update_direction Snake.init) = Ok (340, 240) /\
  Snake.hits_body (Snake.update_direction Snake.init) (340, 240) = false /\
  advance Snake.init [3]
  = Ok (Snake.mk 1 [(340, 240)] RIGHT None (Some (320, 240)), [3]) /\
  Snake.last (Snake.mk 1 [(340, 240)] RIGHT None (Some (320, 240)))
  = Some (List.last (Snake.positions Snake.init) (340, 240)).
Proof.
  split; [reflexivity | split; [reflexivity | split; [reflexivity |]]].
  destruct (committed_move_shape Snake.init
              (Snake.mk 1 [(340, 240)] RIGHT None (Some (320, 240)))
              [3] [3] (340, 240) eq_refl eq_refl eq_refl)
    as [_ [_ [_ [_ Hpop]]]].
  destruct (Hpop ltac:(cbv; discriminate)) as [_ [Hlast _]].
  exact Hlast.
Defined.

(** ** Quitting and the order of the key presses *)

Lemma handle_keys_app (e1 e2 : list Event) :
  forall s,
    handle_keys s (e1 ++ e2) = (s' <- handle_keys s e1 ;; handle_keys s' e2).
Proof.
  induction e1 as [| ev e1 IH]; intros s; [reflexivity |].
  destruct ev; cbn [handle_keys app bind]; [reflexivity | apply IH | apply IH].
Qed.

Lemma handle_keys_returns (events : list Event) :
  forall s, ~ In QUIT events -> exists s', handle_keys s events = Ok s'.
Proof.
  induction events as [| ev rest IH]; intros s Hq.
  - exists s; reflexivity.
  - destruct ev; cbn [handle_keys].
    + exfalso; apply Hq; left; reflexivity.
    + apply IH. intros Hin; apply Hq; right; exact Hin.
    + apply IH. intros Hin; apply Hq; right; exact Hin.
Qed.

Lemma handle_keys_exits (events : list Event) :
  forall s, In QUIT events -> handle_keys s events = Raise SystemExit.
Proof.
  induction events as [| ev rest IH]; intros s Hq; [destruct Hq |].
  destruct ev; cbn [handle_keys]; [reflexivity | |];
    (apply IH; destruct Hq as [E | Hin]; [discriminate | exact Hin]).
Qed.

(** X3.  [handle_keys] raises [SystemExit] exactly when the events of the
    frame contain a [QUIT], wherever it stands among them and whatever
    keys come with it; otherwise it returns, and never raises anything
    else.  The tick of a frame with a [QUIT] ends the same way, before any
    move. *)
Theorem quit_exits {G : Type} `{RandomSource G} :
  forall (gm : Game G) (events : list Event),
    (In QUIT events ->
     handle_keys (snake gm) events = Raise SystemExit /\
     tick gm events = Raise SystemExit /\
     frame gm events = Raise SystemExit) /\
    (~ In QUIT events ->
     exists s', handle_keys (snake gm) events = Ok s') /\
    (forall e, handle_keys (snake gm) events = Raise e -> e = SystemExit).
Proof.
  intros gm events. split; [| split].
  - intros Hq. pose proof (handle_keys_exits events (snake gm) Hq) as Hk.
    unfold frame, tick. rewrite Hk. repeat split.
  - apply handle_keys_returns.
  - intros e He.
    destruct (in_dec (fun a b : Event =>
                        ltac:(decide equality; decide equality)
                        : {a = b} + {a <> b}) QUIT events) as [Hq | Hq].
    + rewrite (handle_keys_exits events _ Hq) in He. congruence.
    + destruct (handle_keys_returns events (snake gm) Hq) as [s' Hs'].
      congruence.
Qed.

(** X5.  Several keys in one frame: each arrow key is tested against the
    direction the snake is heading, not against the keys before it, and an
    accepted key overwrites the earlier ones.  So after a frame that ends
    with an arrow key, the pending direction is that key's direction
    unless it is the opposite of the current direction, in which case the
    key changes nothing. *)
Theorem last_key_wins (s : Snake.t) (events : list Event) (key : Key)
  (d : Direction) :
  ~ In QUIT events ->
  key_direction key = Some d ->
  exists s1,
    handle_keys s events = Ok s1 /\
    (d <> opposite (Snake.direction s) ->
     exists s',
       handle_keys s (events ++ [KEYDOWN key]) = Ok s' /\
       Snake.next_direction s' = Some d /\
       Snake.direction s' = Snake.direction s) /\
    (d = opposite (Snake.direction s) ->
     handle_keys s (events ++ [KEYDOWN key]) = Ok s1).
Proof.
  intros Hq Hkey.
  destruct (handle_keys_returns events s Hq) as [s1 Hs1].
  destruct (handle_keys_spec events s s1 Hs1) as [_ [_ [Hd _]]].
  exists s1. split; [exact Hs1 |].
  rewrite handle_keys_app, Hs1. cbn [bind handle_keys].
  rewrite on_keydown_spec, Hkey, Hd.
  split; intros Hopp.
  - assert (E : pair_eqb (Snake.direction s) (opposite d) = false).
    { apply pair_eqb_neq. intros E. apply Hopp. apply opposite_swap.
      exact E. }
    rewrite E. eexists. split; [reflexivity |].
    cbn [set_next_direction Snake.next_direction Snake.direction].
    split; [reflexivity | exact Hd].
  - subst d. rewrite opposite_involutive, pair_eqb_refl. reflexivity.
Qed.

Lemma last_key_wins_witness :
  ~ In QUIT [KEYDOWN K_UP; OTHER_EVENT] /\
  key_direction K_DOWN = Some DOWN /\
  exists s',
    handle_keys Snake.init ([KEYDOWN K_UP; OTHER_EVENT] ++ [KEYDOWN K_DOWN])
    = Ok s' /\
    Snake.next_direction s' = Some DOWN /\
    Snake.direction s' = Snake.direction Snake.init.
Proof.
  assert (Hq : ~ In QUIT [KEYDOWN K_UP; OTHER_EVENT])
    by (intros [E | [E | []]]; discriminate).
  split; [exact Hq | split; [reflexivity |]].
  destruct (last_key_wins Snake.init [KEYDOWN K_UP; OTHER_EVENT]
              K_DOWN DOWN Hq eq_refl) as [s1 [_ [Hacc _]]].
  apply Hacc. discriminate.
Defined.

(** ** What a tick changes *)

Lemma randomize_position_draws {G : Type} `{RandomSource G}
  (a : Apple.t) (g : G) :
  exists a',
    Apple.randomize_position a g
    = Ok (a', snd (randbelow GRID_HEIGHT (snd (randbelow GRID_WIDTH g)))) /\
    on_grid (Apple.position a').
Proof.
  destruct (Apple.randomize_position a g) as [[a' g'] |] eqn:Hr.
  - exists a'. split; [| exact (randomize_position_on_grid _ _ _ _ Hr)].
    unfold Apple.randomize_position, randint in Hr.
    change (GRID_WIDTH - 1 + 1 - 0) with GRID_WIDTH in Hr.
    change (GRID_HEIGHT - 1 + 1 - 0) with GRID_HEIGHT in Hr.
    change (GRID_WIDTH <=? 0) with false in Hr.
    change (GRID_HEIGHT <=? 0) with false in Hr.
    cbv iota in Hr.
    destruct (randbelow GRID_WIDTH g) as [cx g1]. cbn [bind snd] in *.
    destruct (randbelow GRID_HEIGHT g1) as [cy g2]. cbn [bind snd] in *.
    inversion Hr; subst. reflexivity.
  - destruct (randomize_position_ok a g) as [cx [cy [g' [E _]]]].
    congruence.
Qed.

(** X8.  On a tick that does not run into the body, the apple, the random
    source and [length] change only if the new head lands on the apple.
    If it does not, all three are as before.  If it does, [length] grows
    by exactly one, the random source is advanced by exactly the two draws
    of the relocation, and the new apple is on the grid. *)
Theorem tick_effect {G : Type} `{RandomSource G}
  (gm gm' : Game G) (events : list Event) :
  tick gm events = Ok gm' ->
  ~ crashes (snake gm) events ->
  exists p,
    hd_error (Snake.positions (snake gm')) = Some p /\
    (p <> Apple.position (apple gm) ->
     apple gm' = apple gm /\ rng gm' = rng gm /\
     Snake.length (snake gm') = Snake.length (snake gm)) /\
    (p = Apple.position (apple gm) ->
     Snake.length (snake gm') = Snake.length (snake gm) + 1 /\
     rng gm' = snd (randbelow GRID_HEIGHT
                      (snd (randbelow GRID_WIDTH (rng gm)))) /\
     on_grid (Apple.position (apple gm'))).
Proof.
  intros Htick Hno.
  destruct (tick_inv gm gm' events Htick) as [s1 [s2 [g1 [Hk [Hadv Hc]]]]].
  destruct (handle_keys_spec events _ _ Hk) as [Hl1 _].
  destruct (advance_cases s1 s2 (rng gm) g1 Hadv)
    as [p [Hnew [[Hhit _] | [Hfree [-> Hdrop]]]]].
  { exfalso. apply Hno. exists s1, p. repeat split; assumption. }
  destruct (new_pos_head _ _ Hnew) as [h [rest Hpos]].
  destruct (drop_tail_insert_head _ p h rest Hpos)
    as [s' [Hdrop' [Hhd [Hl2 _]]]].
  rewrite Hdrop in Hdrop'. inversion Hdrop'; subst s'.
  rewrite update_direction_length, Hl1 in Hl2.
  exists p.
  destruct (check_apple_spec s2 (apple gm) (rng gm) p Hhd)
    as [[Heq [a' [g2 [Hrel Hchk]]]] | [Hneq Hchk]];
    rewrite Hchk in Hc; inversion Hc; subst gm'; cbn [snake apple rng].
  - split; [exact Hhd |]. split; [intros Hne; congruence |].
    intros _. destruct (randomize_position_draws (apple gm) (rng gm))
      as [a2 [Hdraw Hon]].
    rewrite Hdraw in Hrel. inversion Hrel; subst.
    cbn [Snake.grow Snake.length]. rewrite Hl2.
    split; [reflexivity | split; [reflexivity | exact Hon]].
  - split; [exact Hhd |]. split; [| intros Heq; congruence].
    intros _. repeat split. exact Hl2.
Qed.

Lemma tick_effect_witness :
  let gm := mkGame Snake.init (Apple.mk (340, 240)) [18; 12] in
  let gm' := mkGame (Snake.mk 2 [(340, 240)] RIGHT None (Some (320, 240)))
               (Apple.mk (360, 240)) [] in
  tick gm [] = Ok gm' /\
  ~ crashes (snake gm) [] /\
  Snake.length (snake gm') = Snake.length (snake gm) + 1.
Proof.
  intros gm gm'.
  assert (Hno : ~ crashes (snake gm) []).
  { intros [s1 [p [Hk [Hnew Hhit]]]].
    inversion Hk; subst s1. inversion Hnew; subst p. discriminate. }
  assert (Ht : tick gm [] = Ok gm') by reflexivity.
  split; [exact Ht | split; [exact Hno |]].
  destruct (tick_effect gm gm' [] Ht Hno) as [p [Hhd [_ Heat]]].
  inversion Hhd; subst p.
  exact (proj1 (Heat eq_refl)).
Defined.

(** ** The loop never fails *)

Lemma Snake_draw_returns (s : Snake.t) :
  Snake.positions s <> [] -> exists calls, Snake_draw s = Ok calls.
Proof.
  intros Hne. unfold Snake_draw.
  destruct (Snake.positions s) as [| h rest]; [congruence |].
  eexists; reflexivity.
Qed.

Lemma tick_returns {G : Type} `{RandomSource G}
  (gm : Game G) (events : list Event) :
  Snake.positions (snake gm) <> [] ->
  ~ In QUIT events ->
  exists gm', tick gm events = Ok gm' /\ Snake.positions (snake gm') <> [].
Proof.
  intros Hne Hq.
  destruct (handle_keys_returns events (snake gm) Hq) as [s1 Hk].
  destruct (handle_keys_spec events _ _ Hk) as [_ [Hp1 _]].
  destruct (Snake.positions (snake gm)) as [| h rest] eqn:Hpos;
    [congruence |].
  assert (Hpos1 : Snake.positions (Snake.update_direction s1) = h :: rest)
    by (rewrite update_direction_positions; exact Hp1).
  destruct (Snake.direction (Snake.update_direction s1)) as [dx dy] eqn:Hd.
  pose proof (new_pos_value _ h rest dx dy Hpos1 Hd) as Hnew.
  assert (Hadv : exists s2 g1 c,
             advance s1 (rng gm) = Ok (s2, g1) /\
             hd_error (Snake.positions s2) = Some c).
  { destruct (Snake.hits_body (Snake.update_direction s1)
                ((fst h + dx * GRID_SIZE) mod SCREEN_WIDTH,
                 (snd h + dy * GRID_SIZE) mod SCREEN_HEIGHT)) eqn:Hhit.
    - destruct (advance_crash s1 (rng gm) _ Hnew Hhit) as [d [_ [_ Ha]]].
      eexists; eexists; exists center. split; [exact Ha | reflexivity].
    - destruct (move_commits (Snake.update_direction s1) (rng gm) _
                  Hnew Hhit) as [s2 [Hm Hhd]].
      exists s2, (rng gm). eexists. split; [exact Hm | exact Hhd]. }
  destruct Hadv as [s2 [g1 [c [Hadv Hhd]]]].
  assert (Htick : tick gm events = check_apple s2 (apple gm) g1).
  { unfold tick. rewrite Hk; cbn [bind]. rewrite Hadv. reflexivity. }
  destruct (check_apple_spec s2 (apple gm) g1 c Hhd)
    as [[_ [a' [g2 [_ Hchk]]]] | [_ Hchk]];
    eexists; (split; [rewrite Htick; exact Hchk |]);
    cbn [snake Snake.grow Snake.positions];
    intros E; rewrite E in Hhd; discriminate.
Qed.

(** X4.  From every game the loop can reach, one pass through the body of
    the loop, drawing included, either returns (when the frame has no
    [QUIT]) or raises [SystemExit] (when it has one): [positions[0]] and
    [pop()] never raise [IndexError], and [randint] never raises
    [ValueError]. *)
Theorem frame_never_fails {G : Type} `{RandomSource G}
  (gm : Game G) (events : list Event) :
  reachable gm ->
  (In QUIT events -> frame gm events = Raise SystemExit) /\
  (~ In QUIT events ->
   exists gm' calls,
     frame gm events = Ok (gm', calls) /\
     tick gm events = Ok gm' /\
     reachable gm').
Proof.
  intros Hr. split.
  - intros Hq. unfold frame, tick.
    rewrite (handle_keys_exits events _ Hq). reflexivity.
  - intros Hq.
    destruct (reachable_snake_inv gm Hr) as [Hne _].
    destruct (tick_returns gm events Hne Hq) as [gm' [Htick Hne']].
    destruct (Snake_draw_returns (snake gm') Hne') as [calls Hdraw].
    exists gm'. eexists. split; [| split; [exact Htick |]].
    + unfold frame, render. rewrite Htick; cbn [bind].
      rewrite Hdraw; cbn [bind]. reflexivity.
    + exact (reachable_tick gm events gm' Hr Htick).
Qed.

Lemma frame_never_fails_witness :
  reachable (crash_game 0) /\
  frame (crash_game 0) [OTHER_EVENT; QUIT] = Raise SystemExit.
Proof.
  split; [apply crash_game_reachable |].
  apply (frame_never_fails (crash_game 0) [OTHER_EVENT; QUIT]
           (crash_game_reachable 0)).
  right; left; reflexivity.
Defined.

(** ** Growth *)

(** X2.  Growth is lazy and one segment per move: after [n] moves in a
    row that do not run into the body, a snake that had no more segments
    than [length] has [min (segments + n) length] of them, and [length]
    has not changed.  So [k] increments of [length] are absorbed by the
    next [k] moves, and further moves keep the count. *)
Theorem growth_converges {G : Type} `{RandomSource G}
  (n : nat) (s s' : Snake.t) :
  committed_moves G n s s' ->
  Snake.positions s <> [] ->
  segments s <= Snake.length s ->
  segments s' = Z.min (segments s + Z.of_nat n) (Snake.length s) /\
  Snake.length s' = Snake.length s /\
  Snake.positions s' <> [].
Proof.
  induction 1 as [s | n s events s1 p g s2 g' s3 Hk Hnew Hfree Hadv _ IH];
    intros Hne Hle.
  - rewrite Z.add_0_r. split; [lia | split; [reflexivity | exact Hne]].
  - destruct (handle_keys_spec events _ _ Hk) as [Hl1 [Hp1 _]].
    assert (Hseg1 : segments s1 = segments s)
      by (unfold segments; rewrite Hp1; reflexivity).
    destruct (advance_cases s1 s2 g g' Hadv)
      as [q [Hq [[Hhit _] | [_ [_ Hdrop]]]]];
      rewrite Hnew in Hq; inversion Hq; subst q; [congruence |].
    destruct (new_pos_head _ _ Hnew) as [h [rest Hpos]].
    destruct (drop_tail_insert_head _ p h rest Hpos)
      as [sx [Hdrop' [Hhd [Hl2 [_ [_ Hcase]]]]]].
    rewrite Hdrop in Hdrop'. inversion Hdrop'; subst sx.
    rewrite update_direction_length, Hl1 in Hl2.
    assert (Hne2 : Snake.positions s2 <> [])
      by (intros E; rewrite E in Hhd; discriminate).
    assert (Hseg2 : segments s2 = Z.min (segments s + 1) (Snake.length s)).
    { unfold segments in *.
      rewrite update_direction_positions, update_direction_length in Hcase.
      rewrite update_direction_positions in Hpos.
      rewrite Hpos in *. rewrite Hl1 in Hcase.
      destruct Hcase as [[Hgt [Hp' _]] | [Hle' [Hp' _]]]; rewrite Hp';
        cbn [List.length] in *; rewrite ?removelast_cons_length; lia. }
    destruct (IH Hne2 ltac:(rewrite Hl2; lia)) as [Hs3 [Hl3 Hne3]].
    rewrite Hs3, Hl3, Hl2, Hseg2.
    split; [lia | split; [reflexivity | exact Hne3]].
Qed.

Lemma growth_converges_witness :
  let s := Snake.grow (Snake.grow Snake.init) in
  let s1 := Snake.mk 3 [(340, 240); (320, 240)] RIGHT None None in
  let s2 := Snake.mk 3 [(360, 240); (340, 240); (320, 240)] RIGHT None None in
  committed_moves (list Z) 2 s s2 /\
  Snake.positions s <> [] /\
  segments s <= Snake.length s /\
  segments s2 = Snake.length s.
Proof.
  intros s s1 s2.
  assert (Hmoves : committed_moves (list Z) 2 s s2).
  { apply (moves_next 1 s [] s (340, 240) [] s1 [] s2);
      try reflexivity.
    apply (moves_next 0 s1 [] s1 (360, 240) [] s2 [] s2);
      try reflexivity.
    apply moves_none. }
  assert (Hne : Snake.positions s <> []) by discriminate.
  assert (Hle : segments s <= Snake.length s) by (cbv; discriminate).
  split; [exact Hmoves | split; [exact Hne | split; [exact Hle |]]].
  destruct (growth_converges 2 s s2 Hmoves Hne Hle) as [Hseg _].
  rewrite Hseg. reflexivity.
Defined.

(** ** Steps on the torus *)

Lemma shift_ne (x k m : Z) :
  0 < m -> 0 <= x < m -> k mod m <> 0 -> (x + k) mod m <> x.
Proof.
  intros Hm Hx Hk E. apply Hk.
  pose proof (Z.div_mod (x + k) m ltac:(lia)) as Hdiv.
  rewrite E in Hdiv.
  replace k with ((x + k) / m * m) by lia.
  apply Z.mod_mul. lia.
Qed.

(** Refutes [H : (x + k) mod m = x] for a closed [k] that [m] does not
    divide, given the range [Hr] of [x]. *)
Ltac off_by H Hr :=
  revert H; apply shift_ne;
  [reflexivity | exact Hr | vm_compute; discriminate].

Lemma step_step (d d' : Direction) (c : Cell) :
  step d' (step d c)
  = ((fst c + (fst d + fst d') * GRID_SIZE) mod SCREEN_WIDTH,
     (snd c + (snd d + snd d') * GRID_SIZE) mod SCREEN_HEIGHT).
Proof.
  unfold step; cbn [fst snd].
  rewrite !Z.add_mod_idemp_l by discriminate.
  f_equal; f_equal; ring.
Qed.

Lemma step_on_grid (d : Direction) (c : Cell) :
  on_grid c -> on_grid (step d c).
Proof.
  intros [[Hx _] [Hy _]]. unfold on_grid, step; cbn [fst snd].
  change SCREEN_WIDTH with (GRID_WIDTH * GRID_SIZE) at 1.
  change SCREEN_HEIGHT with (GRID_HEIGHT * GRID_SIZE) at 1.
  rewrite !step_mod_grid by assumption.
  repeat split; try reflexivity; apply Z.mod_pos_bound; reflexivity.
Qed.

Lemma new_pos_step (s : Snake.t) (h : Cell) (rest : list Cell) :
  Snake.positions s = h :: rest ->
  Snake.new_pos s = Ok (step (Snake.direction s) h).
Proof.
  intros Hpos. destruct (Snake.direction s) as [dx dy] eqn:Hd.
  rewrite (new_pos_value s h rest dx dy Hpos Hd). reflexivity.
Qed.

(** A step along one of the four directions leaves the cell. *)
Lemma step_moves (d : Direction) (c : Cell) :
  In d directions -> on_grid c -> step d c <> c.
Proof.
  destruct c as [x y].
  intros Hd [[_ Hx] [_ Hy]] E. cbn [fst snd] in *.
  unfold step in E; cbn [fst snd] in E.
  injection E as Ex Ey.
  destruct Hd as [<- | [<- | [<- | [<- | []]]]];
    cbn [fst snd UP DOWN LEFT RIGHT] in *;
    first [off_by Ex Hx | off_by Ey Hy].
Qed.

(** Two steps bring the snake back only if the second reverses the
    first. *)
Lemma step_no_return (d d' : Direction) (c : Cell) :
  In d directions -> In d' directions -> d' <> opposite d ->
  on_grid c -> step d' (step d c) <> c.
Proof.
  destruct c as [x y].
  intros Hd Hd' Hopp [[_ Hx] [_ Hy]] E. cbn [fst snd] in *.
  rewrite step_step in E; cbn [fst snd] in E.
  injection E as Ex Ey.
  destruct Hd as [<- | [<- | [<- | [<- | []]]]];
    destruct Hd' as [<- | [<- | [<- | [<- | []]]]];
    try (apply Hopp; reflexivity);
    cbn [fst snd UP DOWN LEFT RIGHT] in *;
    first [off_by Ex Hx | off_by Ey Hy].
Qed.

Lemma step_opposite (d : Direction) (c : Cell) :
  on_grid c -> step (opposite d) (step d c) = c.
Proof.
  destruct c as [x y]. intros [[_ Hx] [_ Hy]]. cbn [fst snd] in *.
  rewrite step_step. unfold opposite; cbn [fst snd].
  rewrite !Z.add_opp_diag_r, !Z.mul_0_l, !Z.add_0_r.
  rewrite !Z.mod_small by assumption. reflexivity.
Qed.

Lemma iter_step (n : nat) (d : Direction) (c : Cell) :
  on_grid c ->
  Nat.iter n (step d) c
  = ((fst c + Z.of_nat n * fst d * GRID_SIZE) mod SCREEN_WIDTH,
     (snd c + Z.of_nat n * snd d * GRID_SIZE) mod SCREEN_HEIGHT).
Proof.
  intros [[_ Hx] [_ Hy]].
  induction n as [| n IH].
  - cbn [Nat.iter nat_rect Z.of_nat]. rewrite !Z.mul_0_l, !Z.add_0_r.
    rewrite !Z.mod_small by assumption. destruct c; reflexivity.
  - rewrite Nat.iter_succ, IH. unfold step; cbn [fst snd].
    rewrite !Z.add_mod_idemp_l by discriminate.
    f_equal; f_equal; lia.
Qed.

(** X9.  Steps on the torus compose as on a torus.  For a head on the
    grid: the candidate head of a snake that stands on the candidate head
    of another and heads the opposite way is the head of the other (a step
    back undoes a step, across the edges too); and [GRID_WIDTH] steps
    [RIGHT] or [LEFT], or [GRID_HEIGHT] steps [UP] or [DOWN], lead back to
    the same cell. *)
Theorem steps_on_torus (s : Snake.t) (h : Cell) (rest : list Cell) :
  Snake.positions s = h :: rest ->
  on_grid h ->
  exists p,
    Snake.new_pos s = Ok p /\
    p = step (Snake.direction s) h /\
    (forall s' rest',
       Snake.positions s' = p :: rest' ->
       Snake.direction s' = opposite (Snake.direction s) ->
       Snake.new_pos s' = Ok h) /\
    Nat.iter (Z.to_nat GRID_WIDTH) (step RIGHT) h = h /\
    Nat.iter (Z.to_nat GRID_WIDTH) (step LEFT) h = h /\
    Nat.iter (Z.to_nat GRID_HEIGHT) (step UP) h = h /\
    Nat.iter (Z.to_nat GRID_HEIGHT) (step DOWN) h = h.
Proof.
  intros Hpos Hon.
  exists (step (Snake.direction s) h).
  split; [exact (new_pos_step s h rest Hpos) | split; [reflexivity |]].
  split.
  - intros s' rest' Hpos' Hdir'.
    rewrite (new_pos_step s' _ rest' Hpos'), Hdir', step_opposite by exact Hon.
    reflexivity.
  - destruct h as [x y]. pose proof Hon as [[_ Hx] [_ Hy]].
    cbn [fst snd] in Hx, Hy.
    assert (Hlap : forall n d,
               (Z.of_nat n * fst d * GRID_SIZE) mod SCREEN_WIDTH = 0 ->
               (Z.of_nat n * snd d * GRID_SIZE) mod SCREEN_HEIGHT = 0 ->
               Nat.iter n (step d) (x, y) = (x, y)).
    { intros n d Hdx Hdy.
      rewrite (iter_step n d _ Hon). cbn [fst snd].
      rewrite <- (Z.add_mod_idemp_r x), Hdx by discriminate.
      rewrite <- (Z.add_mod_idemp_r y), Hdy by discriminate.
      rewrite !Z.add_0_r, !Z.mod_small by assumption. reflexivity. }
    repeat split; apply Hlap; reflexivity.
Qed.

Lemma steps_on_torus_witness :
  let s := Snake.mk 1 [(620, 0)] RIGHT None None in
  Snake.positions s = [(620, 0)] /\
  on_grid (620, 0) /\
  forall s' rest',
    Snake.positions s' = (0, 0) :: rest' ->
    Snake.direction s' = opposite (Snake.direction s) ->
    Snake.new_pos s' = Ok (620, 0).
Proof.
  intros s.
  assert (Hon : on_grid (620, 0)) by (repeat split; vm_compute; congruence).
  split; [reflexivity | split; [exact Hon |]].
  destruct (steps_on_torus s (620, 0) [] eq_refl Hon)
    as [p [_ [Hp [Hback _]]]].
  subst p. exact Hback.
Defined.

(** ** The body of the snake *)

Lemma NoDup_removelast {A : Type} (l : list A) :
  NoDup l -> NoDup (removelast l).
Proof.
  intros Hnd. destruct l as [| x l]; [exact Hnd |].
  rewrite (app_removelast_last x (l := x :: l)) in Hnd by discriminate.
  apply NoDup_remove_1 in Hnd. rewrite app_nil_r in Hnd. exact Hnd.
Qed.

Lemma In_removelast {A : Type} (x : A) (l : list A) :
  In x (removelast l) -> In x l.
Proof.
  intros Hin. destruct l as [| y l]; [exact Hin |].
  rewrite (app_removelast_last y (l := y :: l)) by discriminate.
  apply in_or_app. left; exact Hin.
Qed.

Lemma last_In {A : Type} (l : list A) (d : A) :
  l <> [] -> In (List.last l d) l.
Proof.
  intros Hne. rewrite (app_removelast_last d Hne) at 2.
  apply in_or_app. right; left; reflexivity.
Qed.

Lemma last_not_in_removelast {A : Type} (l : list A) (d : A) :
  NoDup l -> l <> [] -> ~ In (List.last l d) (removelast l).
Proof.
  intros Hnd Hne. rewrite (app_removelast_last d Hne) in Hnd.
  apply NoDup_remove_2 in Hnd. rewrite app_nil_r in Hnd. exact Hnd.
Qed.

Lemma linked_removelast (l : list Cell) :
  linked l -> linked (removelast l).
Proof.
  induction l as [| a l IH]; [intros H; exact H |].
  destruct l as [| b l]; [intros _; exact I |].
  intros [Hab Hl]. specialize (IH Hl).
  destruct l as [| c l]; [exact I |].
  change (removelast (a :: b :: c :: l))
    with (a :: b :: removelast (c :: l)).
  change (removelast (b :: c :: l)) with (b :: removelast (c :: l)) in IH.
  split; [exact Hab | exact IH].
Qed.

(** A committed move keeps the body a simple path.  [d0] is the direction
    of the move before, of which the one in force is not the reverse. *)
Lemma commit_keeps_body (s s' : Snake.t) (d0 : Direction) (p : Cell) :
  Forall on_grid (Snake.positions s) ->
  NoDup (Snake.positions s) ->
  linked (Snake.positions s) ->
  (forall h n rest, Snake.positions s = h :: n :: rest -> h = step d0 n) ->
  In d0 directions ->
  In (Snake.direction s) directions ->
  Snake.direction s <> opposite d0 ->
  Snake.new_pos s = Ok p ->
  Snake.hits_body s p = false ->
  Snake.drop_tail (Snake.insert_head s p) = Ok s' ->
  body_inv s'.
Proof.
  intros Hgrid Hnd Hlink Hneck Hd0 Hd Hopp Hnew Hfree Hdrop.
  destruct (new_pos_head _ _ Hnew) as [h [rest Hpos]].
  rewrite (new_pos_step s h rest Hpos) in Hnew.
  inversion Hnew; subst p; clear Hnew.
  rewrite Hpos in Hgrid, Hnd, Hlink.
  assert (Hh : on_grid h) by (inversion Hgrid; assumption).
  assert (Hp : on_grid (step (Snake.direction s) h))
    by (apply step_on_grid; exact Hh).
  assert (Hout : ~ In (step (Snake.direction s) h) (h :: rest)).
  { intros [E | Hin].
    - symmetry in E. revert E. apply step_moves; assumption.
    - destruct rest as [| n rest']; [destruct Hin |].
      destruct Hin as [E | Hin].
      + rewrite (Hneck h n rest' Hpos) in E. symmetry in E. revert E.
        apply step_no_return; try assumption.
        inversion Hgrid as [| ? ? _ Hrest]. inversion Hrest; assumption.
      + unfold Snake.hits_body in Hfree. rewrite Hpos in Hfree.
        cbn [skipn] in Hfree. apply contains_In in Hin. congruence. }
  assert (Hlink' : linked (step (Snake.direction s) h :: h :: rest)).
  { split; [| exact Hlink].
    exists (Snake.direction s). split; [exact Hd | reflexivity]. }
  destruct (drop_tail_insert_head s (step (Snake.direction s) h) h rest Hpos)
    as [s1 [Hdrop1 [_ [_ [Hdir [_ Hcase]]]]]].
  rewrite Hdrop in Hdrop1. inversion Hdrop1; subst s1.
  unfold body_inv.
  destruct Hcase as [[_ [Hp' Hla]] | [_ [Hp' Hla]]]; rewrite Hp', Hla, Hdir.
  - split; [constructor; [exact Hp | apply Forall_removelast; exact Hgrid] |].
    split.
    { constructor; [| apply NoDup_removelast; exact Hnd].
      intros Hin; apply Hout. apply In_removelast; exact Hin. }
    split.
    { change (step (Snake.direction s) h :: removelast (h :: rest))
        with (removelast (step (Snake.direction s) h :: h :: rest)).
      apply linked_removelast. exact Hlink'. }
    split.
    { intros h' n' rest' E.
      destruct rest as [| n rest0]; [discriminate |].
      change (removelast (h :: n :: rest0))
        with (h :: removelast (n :: rest0)) in E.
      inversion E; subst. reflexivity. }
    intros l E. inversion E; subst l; clear E.
    rewrite <- (last_cons rest h h).
    intros [E | Hin].
    + apply Hout. rewrite E. apply last_In. discriminate.
    + revert Hin. apply last_not_in_removelast; [exact Hnd | discriminate].
  - split; [constructor; assumption |].
    split; [constructor; assumption |].
    split; [exact Hlink' |].
    split; [| intros l E; discriminate].
    intros h' n' rest' E. inversion E; subst. reflexivity.
Qed.

Lemma check_apple_snake {G : Type} `{RandomSource G}
  (s : Snake.t) (a : Apple.t) (g : G) (gm : Game G) :
  check_apple s a g = Ok gm -> snake gm = s \/ snake gm = Snake.grow s.
Proof.
  unfold check_apple.
  destruct (Snake.get_head_position s) as [h |]; [| discriminate].
  cbn [bind]. destruct (pair_eqb h (Apple.position a)).
  - destruct (Apple.randomize_position a g) as [[a' g'] |];
      [| discriminate].
    cbn [bind]. intros E; inversion E; subst. right; reflexivity.
  - intros E; inversion E; subst. left; reflexivity.
Qed.

Lemma reachable_body_inv {G : Type} `{RandomSource G} (gm : Game G) :
  reachable gm -> body_inv (snake gm).
Proof.
  induction 1 as [g gm Hstart | gm events gm' Hr IH Htick].
  - unfold start in Hstart.
    destruct (Apple.init g) as [[a g'] |]; [| discriminate].
    inversion Hstart; subst. unfold body_inv; cbn.
    split; [constructor; [exact center_on_grid | constructor] |].
    split; [constructor; [intros [] | constructor] |].
    split; [exact I |].
    split; [intros h n rest E | intros l E]; discriminate.
  - destruct (reachable_snake_inv gm Hr) as [_ [_ [Hnone Hdir]]].
    destruct IH as [Hgrid [Hnd [Hlink [Hneck _]]]].
    destruct (tick_inv gm gm' events Htick)
      as [s1 [s2 [g1 [Hk [Hadv Hc]]]]].
    destruct (handle_keys_spec events _ _ Hk) as [_ [Hp1 _]].
    destruct (committed_direction _ _ _ Hnone Hdir Hk) as [Hin Hopp].
    assert (Hs2 : body_inv s2).
    { destruct (advance_cases s1 s2 (rng gm) g1 Hadv)
        as [p [Hnew [[_ [d [_ [_ ->]]]] | [Hfree [_ Hdrop]]]]].
      - unfold body_inv; cbn.
        split; [constructor; [exact center_on_grid | constructor] |].
        split; [constructor; [intros [] | constructor] |].
        split; [exact I |].
        split; [intros h n rest E | intros l E]; discriminate.
      - apply (commit_keeps_body (Snake.update_direction s1) s2
                 (Snake.direction (snake gm)) p);
          try assumption;
          rewrite update_direction_positions, Hp1; assumption. }
    destruct (check_apple_snake _ _ _ _ Hc) as [-> | ->]; exact Hs2.
Qed.

(** X6.  The snake never overlaps itself: in every game the loop can
    reach, the segments are pairwise distinct cells. *)
Theorem segments_distinct {G : Type} `{RandomSource G} (gm : Game G) :
  reachable gm -> NoDup (Snake.positions (snake gm)).
Proof.
  intros Hr. destruct (reachable_body_inv gm Hr) as [_ [Hnd _]]. exact Hnd.
Qed.

Lemma segments_distinct_witness :
  reachable (crash_game 0) /\
  NoDup (Snake.positions (snake (crash_game 0))).
Proof.
  split; [apply crash_game_reachable |].
  exact (segments_distinct (crash_game 0) (crash_game_reachable 0)).
Defined.

(** X7.  The body is a connected path on the torus: in every game the
    loop can reach, each segment is one step along one of the four
    directions away from the segment behind it, and the head is one step
    along the current direction away from the second segment. *)
Theorem body_connected {G : Type} `{RandomSource G} (gm : Game G) :
  reachable gm ->
  linked (Snake.positions (snake gm)) /\
  (forall h n rest,
     Snake.positions (snake gm) = h :: n :: rest ->
     h = step (Snake.direction (snake gm)) n) /\
  In (Snake.direction (snake gm)) directions.
Proof.
  intros Hr.
  destruct (reachable_body_inv gm Hr) as [_ [_ [Hlink [Hneck _]]]].
  destruct (reachable_snake_inv gm Hr) as [_ [_ [_ Hdir]]].
  split; [exact Hlink | split; [exact Hneck | exact Hdir]].
Qed.

Lemma body_connected_witness :
  reachable (crash_game 0) /\
  linked (Snake.positions (snake (crash_game 0))).
Proof.
  split; [apply crash_game_reachable |].
  exact (proj1 (body_connected (crash_game 0) (crash_game_reachable 0))).
Defined.

(** ** The size of the snake *)

Lemma on_grid_all_cells (c : Cell) : on_grid c -> In c all_cells.
Proof.
  intros Hc. destruct (cell_of_on_grid c Hc) as [cx [cy [-> [Hx Hy]]]].
  unfold all_cells. apply in_prod; apply in_map_iff.
  - exists (Z.to_nat cx). split; [rewrite Z2Nat.id by lia; reflexivity |].
    apply in_seq. lia.
  - exists (Z.to_nat cy). split; [rewrite Z2Nat.id by lia; reflexivity |].
    apply in_seq. lia.
Qed.

Lemma all_cells_length :
  Z.of_nat (List.length all_cells) = GRID_WIDTH * GRID_HEIGHT.
Proof.
  vm_compute. reflexivity.
Qed.

(** X10.  The snake fits on the board: in every game the loop can reach
    it has at least one segment and at most [GRID_WIDTH * GRID_HEIGHT] of
    them (one per cell), and [length] is at least the number of segments
    and at most one more. *)
Theorem snake_fits_board {G : Type} `{RandomSource G} (gm : Game G) :
  reachable gm ->
  1 <= segments (snake gm) <= GRID_WIDTH * GRID_HEIGHT /\
  segments (snake gm) <= Snake.length (snake gm) <= segments (snake gm) + 1.
Proof.
  intros Hr.
  destruct (reachable_body_inv gm Hr) as [Hgrid [Hnd _]].
  destruct (reachable_snake_inv gm Hr) as [Hne [Hlen _]].
  assert (Hincl : incl (Snake.positions (snake gm)) all_cells).
  { intros c Hc. apply on_grid_all_cells.
    rewrite Forall_forall in Hgrid. exact (Hgrid c Hc). }
  pose proof (NoDup_incl_length Hnd Hincl) as Hbound.
  pose proof all_cells_length as Hall.
  unfold segments in *.
  destruct (Snake.positions (snake gm)) as [| h rest]; [congruence |].
  cbn [List.length] in *. lia.
Qed.

Lemma snake_fits_board_witness :
  reachable (crash_game 0) /\
  1 <= segments (snake (crash_game 0)) <= GRID_WIDTH * GRID_HEIGHT.
Proof.
  split; [apply crash_game_reachable |].
  exact (proj1 (snake_fits_board (crash_game 0) (crash_game_reachable 0))).
Defined.

(** X12.  At the top of every iteration the loop can reach, no direction
    is pending (each tick consumes what the frame stored), and the
    direction is one of [UP], [DOWN], [LEFT], [RIGHT]; so the direction
    committed on the tick is one of the four as well, and a frame without
    arrow keys keeps the direction. *)
Theorem loop_top_direction {G : Type} `{RandomSource G}
  (gm : Game G) (events : list Event) (d : Direction) :
  reachable gm ->
  committed (snake gm) events = Ok d ->
  Snake.next_direction (snake gm) = None /\
  In (Snake.direction (snake gm)) directions /\
  In d directions /\
  ((forall key, In (KEYDOWN key) events -> key_direction key = None) ->
   d = Snake.direction (snake gm)).
Proof.
  intros Hr Hc.
  destruct (reachable_snake_inv gm Hr) as [_ [_ [Hnone Hdir]]].
  unfold committed in Hc.
  destruct (handle_keys (snake gm) events) as [s1 |] eqn:Hk;
    [| discriminate].
  cbn [bind] in Hc. inversion Hc; subst d; clear Hc.
  destruct (committed_direction _ _ _ Hnone Hdir Hk) as [Hin _].
  split; [exact Hnone | split; [exact Hdir | split; [exact Hin |]]].
  intros Hkeys.
  assert (Hsame : forall evs s, (forall key, In (KEYDOWN key) evs ->
                                   key_direction key = None) ->
                                forall s', handle_keys s evs = Ok s' ->
                                           s' = s).
  { induction evs as [| ev rest IHe]; intros s Hno s' Hs'.
    - inversion Hs'; reflexivity.
    - destruct ev as [| key |]; cbn [handle_keys] in Hs'.
      + discriminate.
      + rewrite on_keydown_spec, (Hno key (or_introl eq_refl)) in Hs'.
        apply (IHe s); [| exact Hs'].
        intros k Hk'. apply Hno. right; exact Hk'.
      + apply (IHe s); [| exact Hs'].
        intros k Hk'. apply Hno. right; exact Hk'. }
  rewrite (Hsame events (snake gm) Hkeys s1 Hk).
  rewrite (update_direction_idle _ Hnone). reflexivity.
Qed.

Lemma loop_top_direction_witness :
  reachable (crash_game 0) /\
  committed (snake (crash_game 0)) [KEYDOWN K_LEFT] = Ok LEFT /\
  In LEFT directions.
Proof.
  split; [apply crash_game_reachable | split; [reflexivity |]].
  exact (proj1 (proj2 (proj2
           (loop_top_direction (crash_game 0) [KEYDOWN K_LEFT] LEFT
              (crash_game_reachable 0) eq_refl)))).
Defined.

(** ** Drawing *)

Lemma paints_body (c : Cell) (l : list Cell) :
  In (paints c)
     (flat_map (fun position =>
                  let rect := Rect position (GRID_SIZE, GRID_SIZE) in
                  [draw_rect SNAKE_COLOR rect 0;
                   draw_rect BORDER_COLOR rect 1]) l)
  <-> In c l.
Proof.
  rewrite in_flat_map. unfold paints, Rect. split.
  - intros [x [Hx [E | [E | []]]]]; [| discriminate].
    inversion E; subst. exact Hx.
  - intros Hc. exists c. split; [exact Hc | left; reflexivity].
Qed.

(** X11.  What [Snake.draw] puts on the display, in every game the loop
    can reach: it returns; it paints in the colour of the snake the head
    and every segment except the last one, so with two segments or more
    the cell of the last segment gets no paint; and the only rectangle it
    fills with the background colour is the cell recorded in [last], which
    is never a cell of the snake. *)
Theorem snake_draw_skips_tail {G : Type} `{RandomSource G} (gm : Game G) :
  reachable gm ->
  exists calls,
    Snake_draw (snake gm) = Ok calls /\
    (forall c,
       In (paints c) calls <->
       hd_error (Snake.positions (snake gm)) = Some c \/
       In c (removelast (Snake.positions (snake gm)))) /\
    (2 <= segments (snake gm) ->
     In (List.last (Snake.positions (snake gm)) center)
        (Snake.positions (snake gm)) /\
     ~ In (paints (List.last (Snake.positions (snake gm)) center)) calls) /\
    (forall l,
       In (draw_rect BOARD_BACKGROUND_COLOR
             (Rect l (GRID_SIZE, GRID_SIZE)) 0) calls ->
       Snake.last (snake gm) = Some l /\
       ~ In l (Snake.positions (snake gm))).
Proof.
  intros Hr.
  destruct (reachable_body_inv gm Hr) as [_ [Hnd [_ [_ Hlast]]]].
  destruct (reachable_snake_inv gm Hr) as [Hne _].
  unfold Snake_draw, segments.
  destruct (Snake.positions (snake gm)) as [| h rest] eqn:Hpos;
    [congruence |].
  eexists. split; [reflexivity |].
  assert (Hpaint : forall c erase,
             (forall x, In x erase ->
                exists l, x = draw_rect BOARD_BACKGROUND_COLOR
                                (Rect l (GRID_SIZE, GRID_SIZE)) 0) ->
             In (paints c)
               (flat_map (fun position =>
                  let rect := Rect position (GRID_SIZE, GRID_SIZE) in
                  [draw_rect SNAKE_COLOR rect 0;
                   draw_rect BORDER_COLOR rect 1]) (removelast (h :: rest))
                ++ [draw_rect SNAKE_COLOR (Rect h (GRID_SIZE, GRID_SIZE)) 0;
                    draw_rect BORDER_COLOR (Rect h (GRID_SIZE, GRID_SIZE)) 1]
                ++ erase)
             <-> hd_error (h :: rest) = Some c \/
                 In c (removelast (h :: rest))).
  { intros c erase Herase. rewrite in_app_iff, paints_body. split.
    - intros [Hb | [E | [E | Hin]]].
      + right; exact Hb.
      + left. unfold paints, Rect in *. inversion E; reflexivity.
      + discriminate.
      + destruct (Herase _ Hin) as [l El]. discriminate.
    - intros [E | Hb]; [| left; exact Hb].
      inversion E; subst. right; left; reflexivity. }
  assert (Herase : forall x,
             In x match Snake.last (snake gm) with
                  | Some last =>
                      [draw_rect BOARD_BACKGROUND_COLOR
                         (Rect last (GRID_SIZE, GRID_SIZE)) 0]
                  | None => []
                  end ->
             exists l, x = draw_rect BOARD_BACKGROUND_COLOR
                             (Rect l (GRID_SIZE, GRID_SIZE)) 0).
  { intros x. destruct (Snake.last (snake gm)) as [l |]; [| intros []].
    intros [<- | []]. exists l; reflexivity. }
  split; [intros c; apply Hpaint; exact Herase | split].
  - intros Hlen.
    split; [apply last_In; discriminate |].
    rewrite Hpaint by exact Herase.
    destruct rest as [| n rest0]; [cbn [List.length] in Hlen; lia |].
    pose proof (last_not_in_removelast (h :: n :: rest0) center Hnd
                  ltac:(discriminate)) as Hout.
    remember (List.last (h :: n :: rest0) center) as tail eqn:Htail.
    intros [E | Hin]; [| exact (Hout Hin)].
    apply Hout. cbn [hd_error] in E.
    assert (Eh : h = tail) by congruence.
    rewrite <- Eh. left; reflexivity.
  - intros l Hin. apply in_app_or in Hin.
    destruct Hin as [Hb | [E | [E | Hin]]].
    + apply in_flat_map in Hb. destruct Hb as [x [_ [E | [E | []]]]];
        discriminate.
    + discriminate.
    + discriminate.
    + destruct (Snake.last (snake gm)) as [l0 |] eqn:Hl; [| destruct Hin].
      destruct Hin as [E | []]. unfold Rect in E. inversion E; subst l0.
      split; [reflexivity |]. apply Hlast. reflexivity.
Qed.

Lemma snake_draw_skips_tail_witness :
  reachable (crash_game 0) /\
  exists calls,
    Snake_draw (snake (crash_game 0)) = Ok calls /\
    ~ In (paints (380, 240)) calls.
Proof.
  split; [apply crash_game_reachable |].
  destruct (snake_draw_skips_tail (crash_game 0) (crash_game_reachable 0))
    as [calls [Hdraw [_ [Htail _]]]].
  exists calls. split; [exact Hdraw |].
  exact (proj2 (Htail ltac:(cbv; discriminate))).
Defined.

(** ** A snake without segments *)

